(** * MeshTalk server: a shallow embedding of the mesh relay core

    Covered source files: [src/server/crypto.py] (envelope encryption),
    [src/server/ai_voice.py] ([AudioProcessor], [RNNoiseProcessor],
    [AudioBufferProcessor]) and [src/server/mesh_relay.py] ([MeshRelay]).

    Conventions of the model:
    - Python [bytes] are [list Byte.byte]; a Python [str] holding text that
      travels as UTF-8 is kept as its UTF-8 bytes; identifiers are
      [String.string].
    - Exceptions are the constructors of [exc]; a fallible function returns
      [res A := A + exc] ([inl] = returned value, [inr] = raised).
    - SHA-256 and HMAC-SHA256 (Python's [hashlib] and [hmac]) are written
      out, so the development can evaluate the crypto fallback paths.
    - The optional libraries ([nacl], [kyber], [rnnoise]) are records of
      operations; a missing import is [None].
    - Randomness ([os.urandom], [secrets], [uuid.uuid4]) is an input.
    - Times ([time.time()]) are integer seconds ([Z]). *)

From Stdlib Require Import ZArith List Bool Lia String Ascii QArith.
From Stdlib Require Import Qround.
From Stdlib Require Strings.Byte.
From stdpp Require Import base gmap sets strings list.
Import ListNotations.
Open Scope Z_scope.

(* ================================================================== *)
(** ** Bytes, exceptions *)

Abbreviation bytes := (list Byte.byte).

Global Instance byte_eq_decision : EqDecision Byte.byte := Byte.byte_eq_dec.

Definition bval (b : Byte.byte) : Z := Z.of_N (Byte.to_N b).

Definition byte_of (z : Z) : Byte.byte :=
  match Byte.of_N (Z.to_N (z mod 256)) with
  | Some b => b
  | None => Byte.x00
  end.

Definition bxor (a b : Byte.byte) : Byte.byte := byte_of (Z.lxor (bval a) (bval b)).

(** Python exceptions raised along the modelled paths. *)
Inductive exc :=
  | KeyError
  | ValueError
  | TypeError
  | AttributeError
  | JSONDecodeError
  | UnicodeDecodeError
  | CryptoError      (** [nacl.exceptions.CryptoError] and friends *)
  | StructError
  | OverflowError    (** [sendto] to a port outside 0..65535 *)
  | OSError.         (** [sendto] failures: [socket.gaierror], [EMSGSIZE], no route *)

Definition res (A : Type) : Type := (A + exc)%type.

(** [bytes.decode('utf-8')]: strict UTF-8 validation as CPython does it
    (no overlong forms, no surrogates, nothing above U+10FFFF). *)
Fixpoint utf8_valid_fuel (fuel : nat) (l : list Z) : bool :=
  match fuel with
  | O => true
  | S fuel =>
    let cont b := (0x80 <=? b) && (b <=? 0xBF) in
    match l with
    | [] => true
    | b0 :: r =>
      if b0 <=? 0x7F then utf8_valid_fuel fuel r
      else if (0xC2 <=? b0) && (b0 <=? 0xDF) then
        match r with
        | b1 :: r' => cont b1 && utf8_valid_fuel fuel r'
        | _ => false
        end
      else if (0xE0 <=? b0) && (b0 <=? 0xEF) then
        match r with
        | b1 :: b2 :: r' =>
          let lo := if b0 =? 0xE0 then 0xA0 else 0x80 in
          let hi := if b0 =? 0xED then 0x9F else 0xBF in
          (lo <=? b1) && (b1 <=? hi) && cont b2 && utf8_valid_fuel fuel r'
        | _ => false
        end
      else if (0xF0 <=? b0) && (b0 <=? 0xF4) then
        match r with
        | b1 :: b2 :: b3 :: r' =>
          let lo := if b0 =? 0xF0 then 0x90 else 0x80 in
          let hi := if b0 =? 0xF4 then 0x8F else 0xBF in
          (lo <=? b1) && (b1 <=? hi) && cont b2 && cont b3
          && utf8_valid_fuel fuel r'
        | _ => false
        end
      else false
    end
  end.

Definition utf8_valid (l : bytes) : bool :=
  utf8_valid_fuel (length l) (map bval l).

(** [data.decode('utf-8')], keeping the text as its bytes. *)
Definition utf8_decode (l : bytes) : res bytes :=
  if utf8_valid l then inl l else inr UnicodeDecodeError.

(* ================================================================== *)
(** ** SHA-256 ([hashlib.sha256]) and HMAC-SHA256 ([hmac.new(k, m, sha256)]) *)

Module SHA256.

Definition mask32 (x : Z) : Z := Z.land x (Z.ones 32).
Definition add32 (a b : Z) : Z := mask32 (a + b).
Definition rotr (x : Z) (n : Z) : Z :=
  mask32 (Z.lor (Z.shiftr x n) (Z.shiftl x (32 - n))).

(** The first [n] primes, by trial division over [2 .. 311]. *)
Definition is_prime (p : Z) : bool :=
  forallb (fun d => negb (p mod d =? 0)) (map Z.of_nat (seq 2 (Z.to_nat p - 2))).

Definition primes (n : nat) : list Z :=
  firstn n (filter is_prime (map Z.of_nat (seq 2 310))).

(** [floor (x ^ (1/k))], found bit by bit from bit [b - 1] down. *)
Fixpoint root_bits (k : Z) (x : Z) (b : nat) (r : Z) : Z :=
  match b with
  | O => r
  | S b' =>
      let c := r + 2 ^ Z.of_nat b' in
      root_bits k x b' (if c ^ k <=? x then c else r)
  end.

(** Round constants: the first 32 fractional bits of the cube roots of the
    first 64 primes. *)
Definition K : list Z :=
  map (fun p => mask32 (root_bits 3 (p * 2 ^ 96) 36 0)) (primes 64).

(** Initial hash value: the first 32 fractional bits of the square roots of
    the first 8 primes. *)
Definition H0 : list Z :=
  map (fun p => mask32 (Z.sqrt (p * 2 ^ 64))) (primes 8).

Definition ssig0 (x : Z) : Z := Z.lxor (Z.lxor (rotr x 7) (rotr x 18)) (Z.shiftr x 3).
Definition ssig1 (x : Z) : Z := Z.lxor (Z.lxor (rotr x 17) (rotr x 19)) (Z.shiftr x 10).
Definition bsig0 (x : Z) : Z := Z.lxor (Z.lxor (rotr x 2) (rotr x 13)) (rotr x 22).
Definition bsig1 (x : Z) : Z := Z.lxor (Z.lxor (rotr x 6) (rotr x 11)) (rotr x 25).

(** Big-endian words of a 64-byte block. *)
Fixpoint words (l : list Z) : list Z :=
  match l with
  | a :: b :: c :: d :: r =>
      (a * 16777216 + b * 65536 + c * 256 + d) :: words r
  | _ => []
  end.

(** The 48 schedule words after the first 16, from a sliding window. *)
Fixpoint extend (n : nat) (win : list Z) : list Z :=
  match n with
  | O => []
  | S n =>
    let w := add32 (add32 (ssig1 (nth 14 win 0)) (nth 9 win 0))
                   (add32 (ssig0 (nth 1 win 0)) (nth 0 win 0)) in
    w :: extend n (tl win ++ [w])
  end.

Definition schedule (w16 : list Z) : list Z := w16 ++ extend 48 w16.

Definition round (st : list Z) (kw : Z * Z) : list Z :=
  match st with
  | [a; b; c; d; e; f; g; h] =>
    let ch := Z.lxor (Z.land e f) (Z.land (Z.lxor e (Z.ones 32)) g) in
    let t1 := add32 (add32 (add32 h (bsig1 e)) (add32 ch (fst kw))) (snd kw) in
    let maj := Z.lxor (Z.lxor (Z.land a b) (Z.land a c)) (Z.land b c) in
    let t2 := add32 (bsig0 a) maj in
    [add32 t1 t2; a; b; c; add32 d t1; e; f; g]
  | _ => st
  end.

Definition compress (hs : list Z) (block : list Z) : list Z :=
  let st := fold_left round (combine K (schedule (words block))) hs in
  map (fun p => add32 (fst p) (snd p)) (combine hs st).

Fixpoint blocks (fuel : nat) (l : list Z) : list (list Z) :=
  match fuel with
  | O => []
  | S fuel => match l with [] => [] | _ => firstn 64 l :: blocks fuel (skipn 64 l) end
  end.

Definition be_bytes (n : nat) (x : Z) : list Z :=
  map (fun i => Z.land (Z.shiftr x (8 * Z.of_nat (n - 1 - i))) 255) (seq 0 n).

Definition pad (l : list Z) : list Z :=
  let len := Z.of_nat (length l) in
  let k := (55 - len) mod 64 in
  l ++ [0x80] ++ repeat 0 (Z.to_nat k) ++ be_bytes 8 (8 * len).

Definition hash (m : bytes) : bytes :=
  let p := pad (map bval m) in
  let hs := fold_left compress (blocks (length p) p) H0 in
  map byte_of (flat_map (be_bytes 4) hs).

End SHA256.

Definition sha256 : bytes -> bytes := SHA256.hash.

Definition hmac_sha256 (key msg : bytes) : bytes :=
  let k := if (64 <? length key)%nat then sha256 key else key in
  let k := k ++ repeat Byte.x00 (64 - length k) in
  let ipad := map (fun b => bxor b Byte.x36) k in
  let opad := map (fun b => bxor b Byte.x5c) k in
  sha256 (opad ++ sha256 (ipad ++ msg)).

(** Lower-case hex rendering, used to compare with known digests. *)
Definition hex_digit (z : Z) : ascii :=
  ascii_of_nat (Z.to_nat (if z <? 10 then 48 + z else 87 + z)).
Fixpoint hex (l : bytes) : string :=
  match l with
  | [] => EmptyString
  | b :: r => String (hex_digit (bval b / 16)) (String (hex_digit (bval b mod 16)) (hex r))
  end.

Definition bytes_of_string (s : string) : bytes :=
  map (fun c => byte_of (Z.of_nat (nat_of_ascii c))) (list_ascii_of_string s).

(* ================================================================== *)
(** ** crypto.py *)

Module Crypto.

Global Instance res_ret : MRet res := fun A a => inl a.
Global Instance res_bind : MBind res :=
  fun A B k m => match m with inl a => k a | inr e => inr e end.

(** A JSON string field of an envelope: base64 text, kept as the bytes it
    decodes to, or a value [base64.b64decode] rejects. *)
Inductive field :=
  | FB64 (b : bytes)
  | FBad.

(** A datagram as [json.loads(data.decode('utf-8'))] sees it: a JSON
    object (an association list, keys distinct), or anything else, with
    the exception reading it raises (not UTF-8, not JSON, not an object). *)
Inductive datagram :=
  | DObj (fields : list (string * field))
  | DOther (e : exc).

(** [json.loads(datagram.decode('utf-8'))] followed by [data[k]] and
    [base64.b64decode]. *)
Definition loads (d : datagram) : res (list (string * field)) :=
  match d with DObj fs => inl fs | DOther e => inr e end.

Definition get_b64 (fs : list (string * field)) (k : string) : res bytes :=
  match find (fun p => String.eqb (fst p) k) fs with
  | None => inr KeyError
  | Some (_, FB64 b) => inl b
  | Some (_, FBad) => inr ValueError
  end.

(** A key as the code holds it: a base64 string (kept as the bytes it
    decodes to) or a JSON [null] ([content.get("public_key")] of a
    discovery payload without that field). *)
Abbreviation key := (option bytes).

Definition b64decode (k : key) : res bytes :=
  match k with Some b => inl b | None => inr TypeError end.

(** PyNaCl, when importable. Construction of [PrivateKey]/[PublicKey] and
    of the boxes may raise, so the operations are fallible. *)
Record NaclLib := {
  nacl_public_of : bytes -> bytes;                           (* PrivateKey(sk).public_key *)
  box_encrypt : bytes -> bytes -> bytes -> bytes -> res bytes; (* Box(sk, PublicKey(pk)).encrypt(m, nonce) *)
  box_decrypt : bytes -> bytes -> bytes -> res bytes;        (* Box(PrivateKey(sk), PublicKey(pk)).decrypt(c) *)
  secretbox_encrypt : bytes -> bytes -> bytes -> res bytes;  (* SecretBox(k).encrypt(m) with nonce *)
  secretbox_decrypt : bytes -> bytes -> res bytes            (* SecretBox(k).decrypt(c) *)
}.

(** The [kyber] module, when importable. *)
Record KyberLib := {
  kyber_keygen : bytes -> bytes * bytes;                     (* kyber.keygen() with its coins *)
  kyber_encap : bytes -> bytes -> res (bytes * bytes);       (* kyber.encap(pk) with its coins *)
  kyber_decap : bytes -> bytes -> res bytes                  (* kyber.decap(c, sk) *)
}.

(** Import-time configuration: [NACL_AVAILABLE] and [KYBER_AVAILABLE]. *)
Record env := { nacl : option NaclLib; kyber : option KyberLib }.

(** The random draws of one [encrypt_message] call. *)
Record coins := {
  c_secret : bytes;   (* os.urandom(32) / kyber coins *)
  c_nonce : bytes;    (* 24-byte AEAD nonce *)
  c_fb_nonce : bytes; (* os.urandom(16) of CryptoFallback.encrypt *)
  c_eph : bytes       (* PrivateKey.generate() of CryptoFallback.encrypt *)
}.

(** The keystream loop shared by the fallback paths:
    [seed = key + nonce; while len(ks) < n: seed = sha256(seed); ks.extend(seed)]. *)
Fixpoint ks_blocks (seed : bytes) (k : nat) : bytes :=
  match k with
  | O => []
  | S k => let s := sha256 seed in s ++ ks_blocks s k
  end.

Definition keystream (seed : bytes) (n : nat) : bytes :=
  ks_blocks seed (Nat.div (n + 31) 32).

Definition xor_bytes (m ks : bytes) : bytes :=
  map (fun p => bxor (fst p) (snd p)) (combine m ks).

(** *** class CryptoFallback *)

Definition fallback_generate_keypair (E : env) (sk : bytes) : key * key :=
  match nacl E with
  | Some L => (Some (nacl_public_of L sk), Some sk)
  | None => (Some (sha256 sk), Some sk)
  end.

Definition fallback_encrypt (E : env) (message : bytes) (pk : key) (c : coins)
  : res datagram :=
  match nacl E with
  | Some L =>
      pkb ← b64decode pk;
      encrypted ← box_encrypt L (c_eph c) pkb (c_nonce c) message;
      mret (DObj [("epk", FB64 (nacl_public_of L (c_eph c)));
                  ("ciphertext", FB64 encrypted)])
  | None =>
      k ← b64decode pk;
      let k := firstn 32 k in
      let ks := keystream (k ++ c_fb_nonce c) (length message) in
      mret (DObj [("nonce", FB64 (c_fb_nonce c));
                  ("ciphertext", FB64 (xor_bytes message ks))])
  end.

Definition fallback_decrypt (E : env) (d : datagram) (sk : key) : res bytes :=
  match nacl E with
  | Some L =>
      data ← loads d;
      epk ← get_b64 data "epk";
      ct ← get_b64 data "ciphertext";
      skb ← b64decode sk;
      decrypted ← box_decrypt L skb epk ct;
      utf8_decode decrypted
  | None =>
      data ← loads d;
      nonce ← get_b64 data "nonce";
      ct ← get_b64 data "ciphertext";
      k ← b64decode sk;
      let k := firstn 32 k in
      let ks := keystream (k ++ nonce) (length ct) in
      utf8_decode (xor_bytes ct ks)
  end.

(** *** class CrystalsKyber *)

Definition kyber_generate_keypair (E : env) (seed : bytes) : key * key :=
  match kyber E with
  | Some K => let '(pk, sk) := kyber_keygen K seed in (Some pk, Some sk)
  | None => fallback_generate_keypair E seed
  end.

Definition encapsulate (E : env) (pk : key) (c : coins) : res (bytes * bytes) :=
  match kyber E with
  | Some K => pkb ← b64decode pk; kyber_encap K pkb (c_secret c)
  | None =>
      let shared_secret := c_secret c in
      pkb ← b64decode pk;
      mret (hmac_sha256 pkb shared_secret, shared_secret)
  end.

Definition decapsulate (E : env) (ct : bytes) (sk : key) : res bytes :=
  match kyber E with
  | Some K => skb ← b64decode sk; kyber_decap K ct skb
  | None => skb ← b64decode sk; mret (sha256 (ct ++ skb))
  end.

(** *** class XChaCha20Poly1305 *)

Definition aead_encrypt (E : env) (message k : bytes) (c : coins) : res bytes :=
  match nacl E with
  | Some L => secretbox_encrypt L k (c_nonce c) message
  | None =>
      let nonce := c_nonce c in
      let ct := xor_bytes message (keystream (k ++ nonce) (length message)) in
      let auth_tag := hmac_sha256 k (nonce ++ ct) in
      mret (nonce ++ auth_tag ++ ct)
  end.

(** [None] is the [return None] of a failed authentication. *)
Definition aead_decrypt (E : env) (ed k : bytes) : res (option bytes) :=
  match nacl E with
  | Some L =>
      match secretbox_decrypt L k ed with
      | inl p => inl (Some p)
      | inr CryptoError => inl None
      | inr e => inr e
      end
  | None =>
      let nonce := firstn 24 ed in
      let auth_tag := skipn 24 (firstn 56 ed) in
      let ct := skipn 56 ed in
      let expected := hmac_sha256 k (nonce ++ ct) in
      if bool_decide (auth_tag = expected)
      then inl (Some (xor_bytes ct (keystream (k ++ nonce) (length ct))))
      else inl None
  end.

(** *** Module functions *)

Definition generate_keypair (E : env) (seed : bytes) : key * key :=
  kyber_generate_keypair E seed.

(** The [try] body of [encrypt_message]. *)
Definition encrypt_main (E : env) (message : bytes) (pk : key) (c : coins)
  : res datagram :=
  '(ct, ss) ← encapsulate E pk c;
  em ← aead_encrypt E message ss c;
  mret (DObj [("kyber_ciphertext", FB64 ct); ("encrypted_message", FB64 em)]).

Definition encrypt_message (E : env) (message : bytes) (pk : key) (c : coins)
  : res datagram :=
  match encrypt_main E message pk c with
  | inl d => inl d
  | inr _ => fallback_encrypt E message pk c
  end.

(** The [try] body of [decrypt_message]. *)
Definition decrypt_main (E : env) (d : datagram) (sk : key) : res bytes :=
  data ← loads d;
  kc ← get_b64 data "kyber_ciphertext";
  em ← get_b64 data "encrypted_message";
  ss ← decapsulate E kc sk;
  r ← aead_decrypt E em ss;
  match r with
  | None => inr ValueError
  | Some p => utf8_decode p
  end.

Definition decrypt_message (E : env) (d : datagram) (sk : key) : res bytes :=
  match decrypt_main E d sk with
  | inl p => inl p
  | inr _ => fallback_decrypt E d sk
  end.

(** The configuration with neither PyNaCl nor kyber importable. *)
Definition no_libs : env := {| nacl := None; kyber := None |}.

End Crypto.

(* ================================================================== *)
(** ** ai_voice.py: RNNoiseProcessor, AudioProcessor, AudioBufferProcessor *)

Module Voice.

Definition FRAME_SIZE : nat := 480.
Definition DENOISE_BUFFER : nat := 8.

(** [struct.unpack("<{n//2}h", data)]: signed 16-bit little-endian; raises
    [struct.error] when the length is odd. *)
Fixpoint le16_samples (l : bytes) : list Z :=
  match l with
  | lo :: hi :: r =>
      let u := bval lo + 256 * bval hi in
      (if u <? 32768 then u else u - 65536) :: le16_samples r
  | _ => []
  end.

Definition unpack (l : bytes) : res (list Z) :=
  if Nat.even (length l) then inl (le16_samples l) else inr StructError.

(** [struct.pack("<{n}h", *xs)] of int16 values. *)
Definition pack (xs : list Z) : bytes :=
  flat_map (fun x => let u := x mod 65536 in [byte_of (u mod 256); byte_of (u / 256)]) xs.

(** [(x * 32768.0).astype(np.int16)]: truncation toward zero, then the
    16-bit wrap-around. *)
Definition to_int16 (x : Q) : Z :=
  let y := Qmult x (inject_Z 32768) in
  let t := if Qle_bool 0%Q y then Qfloor y else - Qfloor (Qopp y) in
  (t + 32768) mod 65536 - 32768.

Definition to_float (s : Z) : Q := Qmake s 32768.

Definition clip (x : Q) : Q :=
  if Qle_bool x (-1)%Q then (-1)%Q else if Qle_bool 1%Q x then 1%Q else x.

Definition mean (xs : list Q) : Q :=
  Qdiv (fold_right Qplus 0%Q xs) (inject_Z (Z.of_nat (length xs))).

(** [np.mean(np.vstack(frames), axis=0)]; [vstack] raises on an empty
    list and on rows of different lengths. *)
Definition column_mean (rows : list (list Q)) : res (list Q) :=
  match rows with
  | [] => inr ValueError
  | r0 :: _ =>
      if forallb (fun r => Nat.eqb (length r) (length r0)) rows
      then inl (map (fun i => mean (map (fun r => nth i r 0%Q) rows)) (seq 0 (length r0)))
      else inr ValueError
  end.

(** [a - b] on two 1-D numpy arrays: elementwise for equal lengths, a
    length-1 operand is broadcast against the other, and any other pair of
    lengths raises [ValueError]. *)
Definition broadcast_sub (a b : list Q) : res (list Q) :=
  if Nat.eqb (length a) (length b) then inl (map (fun p => Qminus (fst p) (snd p)) (combine a b))
  else match a, b with
       | _, [y] => inl (map (fun x => Qminus x y) a)
       | [x], _ => inl (map (fun y => Qminus x y) b)
       | _, _ => inr ValueError
       end.

(** The [rnnoise] module, when importable: [RNNoise().process_frame]. *)
Record RNNoiseLib := {
  rn_process : list Q -> res (list Q * Q)
}.

(** [_pad_or_trim]. *)
Definition pad_or_trim (xs : list Q) (n : nat) : list Q :=
  if (length xs <? n)%nat then xs ++ repeat 0%Q (n - length xs)
  else if (n <? length xs)%nat then firstn n xs else xs.

(** [RNNoiseProcessor]: its rolling [buffer] of previous frames. *)
Record noise_state := { nbuffer : list (list Q) }.

(** [RNNoiseProcessor._process_frame_fallback]; the [except] branch
    returns the input and VAD probability 0 (after the append). *)
Definition process_frame_fallback (ns : noise_state) (frame : bytes)
  : noise_state * (bytes * Q) :=
  match unpack frame with
  | inr _ => (ns, (frame, 0%Q))
  | inl ints =>
    let xs := map to_float ints in
    let buf := nbuffer ns ++ [xs] in
    let buf := if (DENOISE_BUFFER <? length buf)%nat then tl buf else buf in
    let ns' := {| nbuffer := buf |} in
    let den :=
      if (2 <=? length buf)%nat then
        match column_mean (removelast buf) with
        | inl m =>
            match broadcast_sub xs (map (fun y => Qmult y (1#10)) m) with
            | inl d => inl (map clip d)
            | inr e => inr e
            end
        | inr e => inr e
        end
      else inl xs in
    match den with
    | inr _ => (ns', (frame, 0%Q))
    | inl d =>
      (* [np.mean] of an empty array is [nan], and [min(1.0, nan)] is [1.0] *)
      let vad := match d with
                 | [] => 1%Q
                 | _ => let energy := mean (map (fun x => Qmult x x) d) in
                        if Qle_bool 1%Q (Qmult energy (inject_Z 20)) then 1%Q
                        else Qmult energy (inject_Z 20)
                 end in
      (ns', (pack (map to_int16 d), vad))
    end
  end.

(** The range of a signed 16-bit sample, [struct] format [h]. *)
Definition int16 (x : Z) : Prop := -32768 <= x <= 32767.

Section Processor.

(** [RNNOISE_AVAILABLE]: the [rnnoise] module, if importable. *)
Variable RN : option RNNoiseLib.

(** [RNNoiseProcessor.process_frame]. *)
Definition process_frame (ns : noise_state) (frame : bytes) : noise_state * (bytes * Q) :=
  match RN with
  | None => process_frame_fallback ns frame
  | Some L =>
    match unpack frame with
    | inr _ => (ns, (frame, 0%Q))
    | inl ints =>
      let xs := map to_float ints in
      let xs := if Nat.eqb (length xs) FRAME_SIZE then xs else pad_or_trim xs FRAME_SIZE in
      match rn_process L xs with
      | inr _ => (ns, (frame, 0%Q))
      | inl (den, vad) => (ns, (pack (map to_int16 den), vad))
      end
    end
  end.

(** The [AudioProcessor] fields. *)
Record audio_state := {
  noise : noise_state;
  is_speech : bool;
  speech_frames : Z;
  silence_frames : Z
}.

Definition vad_threshold : Q := 1#2.
Definition min_speech_frames : Z := 10.
Definition min_silence_frames : Z := 20.

Definition audio_init : audio_state :=
  {| noise := {| nbuffer := [] |}; is_speech := false;
     speech_frames := 0; silence_frames := 0 |}.

(** The "Update speech state" block of [process_audio]. *)
Definition vad_step (st : audio_state) (vad_prob : Q) : audio_state :=
  if Qle_bool vad_threshold vad_prob then
    let sp := speech_frames st + 1 in
    {| noise := noise st;
       is_speech := if min_speech_frames <=? sp then true else is_speech st;
       speech_frames := sp; silence_frames := 0 |}
  else
    let si := silence_frames st + 1 in
    {| noise := noise st;
       is_speech := if min_silence_frames <=? si then false else is_speech st;
       speech_frames := 0; silence_frames := si |}.

Definition frame_size_bytes : nat := (FRAME_SIZE * 2)%nat.

(** [AudioProcessor.process_audio]. *)
Definition process_audio (st : audio_state) (audio_data : bytes)
  : audio_state * (bytes * bool) :=
  let audio_data :=
    if Nat.eqb (length audio_data) frame_size_bytes then audio_data
    else if (length audio_data <? frame_size_bytes)%nat
    then audio_data ++ repeat Byte.x00 (frame_size_bytes - length audio_data)
    else firstn frame_size_bytes audio_data in
  let '(ns, (denoised, vad_prob)) := process_frame (noise st) audio_data in
  let st' := vad_step {| noise := ns; is_speech := is_speech st;
                         speech_frames := speech_frames st;
                         silence_frames := silence_frames st |} vad_prob in
  (st', (denoised, is_speech st')).

(** [AudioBufferProcessor.process_buffer], threading the processor state. *)
Definition process_buffer (st : audio_state) (audio_buffer : bytes)
  : audio_state * bytes :=
  let n := length audio_buffer in
  let num_frames := Nat.div n frame_size_bytes in
  let '(st, out) :=
    fold_left
      (fun acc i =>
         let '(st, out) := acc in
         let start := (i * frame_size_bytes)%nat in
         let frame := firstn frame_size_bytes (skipn start audio_buffer) in
         let '(st, (processed, _)) := process_audio st frame in
         (st, out ++ processed))
      (seq 0 num_frames) (st, []) in
  let remaining := Nat.modulo n frame_size_bytes in
  if (0 <? remaining)%nat then
    let frame := skipn (num_frames * frame_size_bytes) audio_buffer in
    let padded := frame ++ repeat Byte.x00 (frame_size_bytes - length frame) in
    let '(st, (processed, _)) := process_audio st padded in
    (st, out ++ firstn (length frame) processed)
  else (st, out).

End Processor.

(** The successive [is_speech] values returned for a sequence of frames
    with VAD probabilities [ps]. *)
Fixpoint speech_trace (st : audio_state) (ps : list Q) : list bool :=
  match ps with
  | [] => []
  | p :: ps => let st' := vad_step st p in is_speech st' :: speech_trace st' ps
  end.

(** A frame is voiced when [vad_prob >= self.vad_threshold]. *)
Definition voiced (p : Q) : bool := Qle_bool vad_threshold p.

(** Length of the longest run of consecutive voiced frames. *)
Fixpoint max_run_acc (cur best : nat) (ps : list Q) : nat :=
  match ps with
  | [] => Nat.max cur best
  | p :: ps =>
      if voiced p then max_run_acc (S cur) best ps
      else max_run_acc 0 (Nat.max cur best) ps
  end.

Definition max_voiced_run (ps : list Q) : nat := max_run_acc 0 0 ps.

(** The [rnnoise] binding returns a frame of the length it is given. *)
Definition rnnoise_frame_ok (RN : option RNNoiseLib) : Prop :=
  match RN with
  | None => True
  | Some L => forall xs den vad, rn_process L xs = inl (den, vad) -> length den = length xs
  end.

End Voice.

(* ================================================================== *)
(** ** ai_voice.py: BasicVoiceDetector *)

Module Detector.
Import Voice.

(** The fields of a [BasicVoiceDetector]. The constructor computes
    [min_frames] as [int(min_duration / frame_duration)] in floating point;
    it is kept here as the integer it evaluates to. *)
Record detector := {
  energy_threshold : Q;
  min_frames : Z;
  d_speech_frames : Z;
  d_is_speech : bool
}.

Definition detector_init (thr : Q) (mf : Z) : detector :=
  {| energy_threshold := thr; min_frames := mf; d_speech_frames := 0; d_is_speech := false |}.

(** [np.mean(float_samples ** 2) > self.energy_threshold]: the mean of no
    samples is NaN, and a comparison with NaN is false. *)
Definition loud (thr : Q) (xs : list Q) : bool :=
  match xs with
  | [] => false
  | _ => negb (Qle_bool (mean (map (fun x => Qmult x x) xs)) thr)
  end.

(** [BasicVoiceDetector.process_frame]: a frame [struct.unpack] rejects
    (odd length) is logged and answered with [False], the state untouched.
    In the quiet branch the code resets [speech_frames] to 0 and then tests
    [speech_frames == 0], which always holds, so [is_speech] is cleared. *)
Definition detector_process_frame (d : detector) (frame : bytes) : detector * bool :=
  match unpack frame with
  | inr _ => (d, false)
  | inl ints =>
    let xs := map to_float ints in
    if loud (energy_threshold d) xs then
      let sf := d_speech_frames d + 1 in
      let d' := {| energy_threshold := energy_threshold d; min_frames := min_frames d;
                   d_speech_frames := sf;
                   d_is_speech := if min_frames d <=? sf then true else d_is_speech d |} in
      (d', d_is_speech d')
    else
      let d' := {| energy_threshold := energy_threshold d; min_frames := min_frames d;
                   d_speech_frames := 0;
                   d_is_speech := if Z.eqb 0 0 then false else d_is_speech d |} in
      (d', d_is_speech d')
  end.

(** The answers of the detector to a sequence of frames. *)
Fixpoint detector_run (d : detector) (frames : list bytes) : list bool :=
  match frames with
  | [] => []
  | f :: fs => let '(d', b) := detector_process_frame d f in b :: detector_run d' fs
  end.

End Detector.

(* ================================================================== *)
(** ** ai_voice.py: VoiceCommandProcessor *)

Module Commands.

(** Command text is a Python [str]; the model covers text whose code
    points are below 256 (Latin-1), one [ascii] per code point. *)

(** [str.lower] on Latin-1: [A]-[Z] and U+00C0..U+00DE except U+00D7 move
    up by 32; every other code point is unchanged. *)
Definition lower_char (c : ascii) : ascii :=
  let n := nat_of_ascii c in
  if (((65 <=? n) && (n <=? 90)) || ((192 <=? n) && (n <=? 222) && negb (n =? 215)))%nat
  then ascii_of_nat (n + 32)%nat else c.

Fixpoint lower (s : string) : string :=
  match s with
  | EmptyString => EmptyString
  | String c r => String (lower_char c) (lower r)
  end.

(** [str.isspace] on Latin-1: U+0009..U+000D, U+001C..U+0020, U+0085, U+00A0. *)
Definition is_space (c : ascii) : bool :=
  let n := nat_of_ascii c in
  (((9 <=? n) && (n <=? 13)) || ((28 <=? n) && (n <=? 32)) || (n =? 133) || (n =? 160))%nat.

(** [str.split()]: the maximal runs of non-whitespace, in order; [cur] is
    the word being read. *)
Fixpoint split_acc (s cur : string) : list string :=
  match s with
  | EmptyString => match cur with EmptyString => [] | _ => [cur] end
  | String c r =>
      if is_space c then
        match cur with
        | EmptyString => split_acc r EmptyString
        | _ => cur :: split_acc r EmptyString
        end
      else split_acc r (cur ++ String c EmptyString)
  end.

Definition split (s : string) : list string := split_acc s EmptyString.

(** [" ".join(xs)]. *)
Definition join (xs : list string) : string := String.concat " " xs.

(** A returned [Dict[str, Any]], keys in insertion order. *)
Inductive jval :=
  | JBool (b : bool)
  | JStr (s : string)
  | JStrs (l : list string).

Abbreviation dict := (list (string * jval)).

Definition handle_call (params : list string) : dict :=
  match params with
  | [] => [("success", JBool false); ("message", JStr "No contact specified")]
  | _ => [("success", JBool true); ("command", JStr "call"); ("contact", JStr (join params));
          ("action", JStr "initiate_call")]
  end.

Definition handle_message (params : list string) : dict :=
  if (length params <? 2)%nat
  then [("success", JBool false); ("message", JStr "Requires contact and message")]
  else [("success", JBool true); ("command", JStr "message");
        ("contact", JStr (hd EmptyString params)); ("text", JStr (join (tl params)));
        ("action", JStr "send_message")].

Definition handle_sos (params : list string) : dict :=
  let message := match params with [] => "SOS alert!" | _ => join params end in
  [("success", JBool true); ("command", JStr "sos"); ("message", JStr message);
   ("action", JStr "broadcast_sos")].

Definition handle_help (_ : list string) : dict :=
  [("success", JBool true); ("command", JStr "help");
   ("message", JStr "Available commands: call, message, sos, help");
   ("action", JStr "show_help")].

(** [self.commands], in insertion order. *)
Definition commands : list (string * (list string -> dict)) :=
  [("call", handle_call); ("message", handle_message); ("sos", handle_sos);
   ("help", handle_help)].

(** [VoiceCommandProcessor.process_command]. *)
Definition process_command (text : string) : dict :=
  match split (lower text) with
  | [] => [("success", JBool false); ("message", JStr "Empty command")]
  | command :: params =>
      match find (fun p => String.eqb (fst p) command) commands with
      | Some (_, h) => h params
      | None => [("success", JBool false); ("message", JStr ("Unknown command: " ++ command));
                 ("available_commands", JStrs (map fst commands))]
      end
  end.

End Commands.

(* ================================================================== *)
(** ** mesh_relay.py: MeshRelay *)

Module Mesh.
Import Crypto.

(** [@dataclass Node]. *)
Record Node := {
  n_id : string;
  n_address : string;
  n_port : Z;
  n_last_seen : Z;
  n_public_key : key;
  n_is_active : bool
}.

(** [@dataclass Message]. *)
Record Message := {
  m_id : string;
  sender_id : string;
  recipient_id : string;
  m_type : string;
  content : string;
  timestamp : Z;
  ttl : Z
}.

Definition set_ttl (m : Message) (t : Z) : Message :=
  {| m_id := m_id m; sender_id := sender_id m; recipient_id := recipient_id m;
     m_type := m_type m; content := content m; timestamp := timestamp m; ttl := t |}.

Definition set_inactive (n : Node) : Node :=
  {| n_id := n_id n; n_address := n_address n; n_port := n_port n;
     n_last_seen := n_last_seen n; n_public_key := n_public_key n; n_is_active := false |}.

Definition set_last_seen (n : Node) (t : Z) : Node :=
  {| n_id := n_id n; n_address := n_address n; n_port := n_port n;
     n_last_seen := t; n_public_key := n_public_key n; n_is_active := n_is_active n |}.

(** The fields of a [MeshRelay] object; [draws] counts the random values
    ([uuid.uuid4()], encryption coins) consumed so far. The dict
    [self.nodes] is its entries [nodes] and its keys in insertion order,
    [node_order]. [socket] is what [self.socket.sendto] does with a
    datagram for an address and port, when [n] random values have been
    drawn (every [sendto] follows a draw of its own, so [n] tells the calls
    apart): send it ([inl]) or raise. *)
Record relay := {
  node_id : string;
  rport : Z;
  public_key : key;
  private_key : key;
  nodes : gmap string Node;
  node_order : list string;
  processed_messages : gset string;
  batman_available : bool;
  draws : nat;
  socket : nat -> string -> Z -> datagram -> res unit
}.

(** Observable effects, in program order. [Sent] is a [socket.sendto] (with
    the message whose JSON was encrypted); [Delivered] is the local
    delivery point of [_handle_data]; [Marked] is
    [processed_messages.add]; [Dispatched] marks the point where a
    received message passes the dedup check and is dispatched by type. *)
Inductive event :=
  | Sent (addr : string) (port : Z) (m : Message) (data : datagram)
  | Delivered (m : Message)
  | Marked (id : string)
  | Dispatched (m : Message).

Record world := { rs : relay; trace : list event }.

(** State with exceptions: mutations made before a [raise] persist, as in
    Python. *)
Definition M (A : Type) : Type := world -> res A * world.

Global Instance M_ret : MRet M := fun A a w => (inl a, w).
Global Instance M_bind : MBind M := fun A B k m w =>
  match m w with
  | (inl a, w') => k a w'
  | (inr e, w') => (inr e, w')
  end.

Definition raise_res {A} (r : res A) : M A := fun w => (r, w).
Definition get_relay : M relay := fun w => (inl (rs w), w).
Definition put_relay (r : relay) : M unit :=
  fun w => (inl tt, {| rs := r; trace := trace w |}).
Definition emit (e : event) : M unit :=
  fun w => (inl tt, {| rs := rs w; trace := trace w ++ [e] |}).

(** [try: body except Exception: handler]. *)
Definition try_except (body : M unit) (handler : exc -> M unit) : M unit :=
  fun w => match body w with
           | (inl u, w') => (inl u, w')
           | (inr e, w') => handler e w'
           end.

Definition skip : M unit := mret tt.

Fixpoint for_each {A} (xs : list A) (f : A -> M unit) : M unit :=
  match xs with
  | [] => skip
  | x :: xs => f x ;; for_each xs f
  end.

Definition with_table (r : relay) (ns : gmap string Node) (order : list string) : relay :=
  {| node_id := node_id r; rport := rport r; public_key := public_key r;
     private_key := private_key r; nodes := ns; node_order := order;
     processed_messages := processed_messages r;
     batman_available := batman_available r; draws := draws r; socket := socket r |}.

Definition with_nodes (r : relay) (ns : gmap string Node) : relay :=
  with_table r ns (node_order r).

(** [self.nodes[k] = v]: a new key joins the end of the iteration order,
    an existing key keeps its place. *)
Definition dict_set (r : relay) (k : string) (v : Node) : relay :=
  with_table r (<[k := v]> (nodes r))
    (match nodes r !! k with Some _ => node_order r | None => node_order r ++ [k] end).

Definition with_processed (r : relay) (p : gset string) : relay :=
  {| node_id := node_id r; rport := rport r; public_key := public_key r;
     private_key := private_key r; nodes := nodes r; node_order := node_order r;
     processed_messages := p;
     batman_available := batman_available r; draws := draws r; socket := socket r |}.

Definition with_draws (r : relay) (n : nat) : relay :=
  {| node_id := node_id r; rport := rport r; public_key := public_key r;
     private_key := private_key r; nodes := nodes r; node_order := node_order r;
     processed_messages := processed_messages r;
     batman_available := batman_available r; draws := n; socket := socket r |}.

(** [self.nodes.items()], in insertion order. In every state the relay
    reaches, [node_order] lists each key of [nodes] once, and this is
    [node_order] with each key's entry; the second part, the keys missing
    from [node_order], is then empty. *)
Definition node_items (r : relay) : list (string * Node) :=
  omap (fun k => (fun n => (k, n)) <$> nodes r !! k) (remove_dups (node_order r)) ++
  filter (fun p => p.1 ∉ node_order r) (map_to_list (nodes r)).

Definition set_nodes (ns : gmap string Node) : M unit :=
  r ← get_relay; put_relay (with_nodes r ns).

(** [self.nodes[k] = v]. *)
Definition set_item (k : string) (v : Node) : M unit :=
  r ← get_relay; put_relay (dict_set r k v).

(** [self.processed_messages.add(id)]. *)
Definition mark_processed (i : string) : M unit :=
  r ← get_relay;
  put_relay (with_processed r ({[i]} ∪ processed_messages r));;
  emit (Marked i).

(** [self.processed_messages] after the maintenance clean-up: the
    comprehension keeps [msg_id] when
    [msg_id.split('-')[-1] > str(int(current_time - 300))]. Python compares
    strings by code points; [str] of an [int] is its decimal rendering. *)
Fixpoint last_segment_acc (s acc : string) : string :=
  match s with
  | EmptyString => acc
  | String c r =>
      if Ascii.eqb c "-"%char then last_segment_acc r EmptyString
      else last_segment_acc r (acc +:+ String c EmptyString)
  end.

Definition last_segment (s : string) : string := last_segment_acc s EmptyString.

Fixpoint str_lt (a b : string) : bool :=
  match a, b with
  | _, EmptyString => false
  | EmptyString, String _ _ => true
  | String c a', String d b' =>
      if (nat_of_ascii c <? nat_of_ascii d)%nat then true
      else if (nat_of_ascii d <? nat_of_ascii c)%nat then false
      else str_lt a' b'
  end.

Fixpoint digits_of_pos (fuel : nat) (n : Z) (acc : string) : string :=
  match fuel with
  | O => acc
  | S fuel =>
    let acc := String (ascii_of_nat (Z.to_nat (48 + n mod 10))) acc in
    if n <? 10 then acc else digits_of_pos fuel (n / 10) acc
  end.

(** [str(n)] for an [int]. *)
Definition str_of_Z (n : Z) : string :=
  if n <? 0 then String "-" (digits_of_pos (Z.to_nat (Z.log2 (- n) + 2)) (- n) EmptyString)
  else digits_of_pos (Z.to_nat (Z.log2 n + 2)) n EmptyString.

Definition keep_msg_id (current_time : Z) (msg_id : string) : bool :=
  str_lt (str_of_Z (current_time - 300)) (last_segment msg_id).

Definition gc_processed (current_time : Z) (p : gset string) : gset string :=
  filter (fun i => keep_msg_id current_time i = true) p.

(** The "mark nodes as inactive" loop of [_maintain_nodes]. *)
Definition mark_stale (current_time : Z) (ns : gmap string Node) : gmap string Node :=
  fmap (fun n => if 60 <? current_time - n_last_seen n
                 then (if n_is_active n then set_inactive n else n) else n) ns.

(** [get_nodes]: the active entries of the table, in iteration order. *)
Definition get_nodes (r : relay) : list Node :=
  filter (fun n => n_is_active n = true) (map snd (node_items r)).

(** [c] only appends events satisfying [P] to the trace and moves the
    relay state along [R], also when it raises. *)
Definition grows {A} (P : event -> Prop) (R : relay -> relay -> Prop) (c : M A) : Prop :=
  forall w, exists new,
    trace (snd (c w)) = trace w ++ new /\ Forall P new /\ R (rs w) (rs (snd (c w))).


End Mesh.

Module MeshRelay.
Import Crypto Mesh.


Section Relay.

(** Import-time crypto configuration. *)
Variable E : env.
(** The random source: the [n]-th draw as encryption coins and as a
    [str(uuid.uuid4())]. *)
Variable rng : nat -> coins.
Variable uuid4 : nat -> string.
(** JSON codec of the standard library:
    [json.dumps(asdict(message)).encode()], the decrypted text parsed by
    [json.loads] and the [Message] constructor, the discovery payload read by
    [content.get("port")] / [content.get("public_key")], the routing
    payload read as its [nodes] entries (each with its [.get("id")] and the
    result of the [Node] constructor on it), and the two payload encoders. *)
Variable message_json : Message -> bytes.
Variable parse_message : bytes -> res Message.
Variable parse_discovery : string -> res (option Z * key).
Variable parse_routing : string -> res (list (option string * res Node)).
Variable discovery_json : Z -> key -> string.
Variable routing_json : list Node -> string.

Definition fresh_coins : M coins :=
  r ← get_relay; put_relay (with_draws r (S (draws r)));; mret (rng (draws r)).

Definition fresh_uuid : M string :=
  r ← get_relay; put_relay (with_draws r (S (draws r)));; mret (uuid4 (draws r)).

(** [self.socket.sendto(d, (addr, port))]: the datagram leaves only when
    the socket does not raise. *)
Definition sendto (addr : string) (port : Z) (m : Message) (d : datagram) : M unit :=
  r ← get_relay;
  raise_res (socket r (draws r) addr port d);;
  emit (Sent addr port m d).

(** One iteration of the [for node_id, node in self.nodes.items()] loops
    that encrypt to one peer and [sendto] it; errors are logged and skipped. *)
Definition send_one (m : Message) (json : bytes) (node : Node) : M unit :=
  try_except
    (c ← fresh_coins;
     d ← raise_res (encrypt_message E json (n_public_key node) c);
     sendto (n_address node) (n_port node) m d)
    (fun _ => skip).

(** [_relay_message]. *)
Definition relay_message (m : Message) : M unit :=
  if ttl m <=? 0 then skip else
  let json := message_json m in
  r ← get_relay;
  for_each (node_items r) (fun '(nid, node) =>
    if bool_decide (nid <> node_id r) && bool_decide (nid <> sender_id m)
       && n_is_active node
    then send_one m json node else skip).

(** [_send_to_all_nodes]. *)
Definition send_to_all_nodes (m : Message) (json : bytes) : M unit :=
  r ← get_relay;
  for_each (node_items r) (fun '(nid, node) =>
    if bool_decide (nid <> node_id r) && n_is_active node
    then send_one m json node else skip).

Definition BATMAN_BROADCAST : string := "192.168.199.255".

(** [_broadcast_message]. *)
Definition broadcast_message (m : Message) : M unit :=
  let json := message_json m in
  mark_processed (m_id m);;
  r ← get_relay;
  if batman_available r then
    try_except
      (c ← fresh_coins;
       d ← raise_res (encrypt_message E json (public_key r) c);
       sendto BATMAN_BROADCAST (rport r) m d)
      (fun _ => send_to_all_nodes m json)
  else send_to_all_nodes m json.

(** [_send_discovery]; [now] is [time.time()]. *)
Definition send_discovery (now : Z) : M unit :=
  u ← fresh_uuid;
  r ← get_relay;
  broadcast_message
    {| m_id := u; sender_id := node_id r; recipient_id := "broadcast";
       m_type := "discovery"; content := discovery_json (rport r) (public_key r);
       timestamp := now; ttl := 3 |}.

(** [_send_routing_info]. *)
Definition send_routing_info (now : Z) : M unit :=
  r ← get_relay;
  let nodes_info := filter (fun n => n_is_active n = true) (map snd (node_items r)) in
  u ← fresh_uuid;
  r ← get_relay;
  broadcast_message
    {| m_id := u; sender_id := node_id r; recipient_id := "broadcast";
       m_type := "routing"; content := routing_json nodes_info;
       timestamp := now; ttl := 2 |}.

(** [send_text_message] / [send_voice_data] (they differ in [type] and
    [ttl]: 3 for text, 1 for voice). *)
Definition send_data (kind : string) (t : Z) (now : Z) (recipient : string) (body : string)
  : M unit :=
  u ← fresh_uuid;
  r ← get_relay;
  let m := {| m_id := u; sender_id := node_id r; recipient_id := recipient;
              m_type := kind; content := body; timestamp := now; ttl := t |} in
  if String.eqb recipient "broadcast" then broadcast_message m
  else match nodes r !! recipient with
       | Some node => send_one m (message_json m) node
       | None => skip
       end.

Definition send_text_message := send_data "text" 3.
Definition send_voice_data := send_data "voice" 1.

(** [_handle_discovery]; [addr] is the datagram's source address. *)
Definition handle_discovery (m : Message) (addr : string) (now : Z) : M unit :=
  c ← raise_res (parse_discovery (content m));
  r ← get_relay;
  let node := {| n_id := sender_id m; n_address := addr;
                 n_port := default (rport r) (fst c);
                 n_last_seen := now; n_public_key := snd c; n_is_active := true |} in
  set_item (sender_id m) node;;
  if bool_decide (sender_id m <> node_id r) then send_routing_info now else skip.

(** [_handle_routing]. An entry whose ["id"] is not a string is looked up as
    absent and then stored under the id of the node built from it. *)
Definition handle_routing (m : Message) (now : Z) : M unit :=
  entries ← raise_res (parse_routing (content m));
  for_each entries (fun '(k, built) =>
    r ← get_relay;
    let fresh := match k with
                 | Some k => bool_decide (k <> node_id r) && bool_decide (nodes r !! k = None)
                 | None => true
                 end in
    if fresh then
      node ← raise_res built;
      let key := default (n_id node) k in
      set_item key (set_last_seen node now)
    else skip).

(** [_handle_data]. *)
Definition handle_data (m : Message) : M unit :=
  r ← get_relay;
  if String.eqb (recipient_id m) (node_id r) || String.eqb (recipient_id m) "broadcast"
  then emit (Delivered m) else skip.

(** The part of [_handle_message] after decryption and decoding. *)
Definition handle_parsed (m : Message) (addr : string) (now : Z) : M unit :=
  r ← get_relay;
  if bool_decide (m_id m ∈ processed_messages r) then skip else
  mark_processed (m_id m);;
  emit (Dispatched m);;
  (if String.eqb (m_type m) "discovery" then handle_discovery m addr now
   else if String.eqb (m_type m) "routing" then handle_routing m now
   else if String.eqb (m_type m) "text" || String.eqb (m_type m) "voice"
   then handle_data m
   else skip);;
  if 0 <? ttl m then relay_message (set_ttl m (ttl m - 1)) else skip.

(** [_handle_message]: every exception is logged and swallowed. *)
Definition handle_message (data : datagram) (addr : string) (now : Z) : M unit :=
  try_except
    (r ← get_relay;
     txt ← raise_res (decrypt_message E data (private_key r));
     m ← raise_res (parse_message txt);
     handle_parsed m addr now)
    (fun _ => skip).

(** One pass of the [_maintain_nodes] loop body, at [current_time]. *)
Definition maintain_pass (current_time : Z) : M unit :=
  try_except
    (r ← get_relay;
     set_nodes (mark_stale current_time (nodes r));;
     send_discovery current_time;;
     r ← get_relay;
     put_relay (with_processed r (gc_processed current_time (processed_messages r))))
    (fun _ => skip).

(** The peers [_relay_message] sends to, in the table's iteration order. *)
Definition is_target (r : relay) (m : Message) (p : string * Node) : bool :=
  bool_decide (p.1 <> node_id r) && bool_decide (p.1 <> sender_id m) && n_is_active p.2.

Definition relay_targets (r : relay) (m : Message) : list (string * Node) :=
  filter (fun p => is_target r m p = true) (node_items r).

(** The copies sent to targets [ts] through socket [sock] when the [k]-th
    random draw is the next one: one per target, unless encrypting for it
    or [sendto] raises. *)
Fixpoint relay_copies (sock : nat -> string -> Z -> datagram -> res unit)
  (m : Message) (ts : list (string * Node)) (k : nat) : list event :=
  match ts with
  | [] => []
  | (_, n) :: ts =>
      match encrypt_message E (message_json m) (n_public_key n) (rng k) with
      | inl d => match sock (S k) (n_address n) (n_port n) d with
                 | inl _ => [Sent (n_address n) (n_port n) m d]
                 | inr _ => []
                 end
      | inr _ => []
      end ++ relay_copies sock m ts (S k)
  end.

(** The receive thread on a sequence of datagrams
    [(data, source address, time of arrival)]. *)
Definition receive_stream (s : list (datagram * string * Z)) : M unit :=
  for_each s (fun '(d, a, t) => handle_message d a t).


End Relay.

End MeshRelay.

(* ================================================================== *)
(** * Concrete configurations, used to evaluate the model *)

Module Samples.
Import Crypto Mesh.

(** A 32-byte key seed and one fixed set of random draws. *)
Definition seed0 : bytes := repeat Byte.x00 32.

Definition coins0 : coins :=
  {| c_secret := repeat Byte.x01 32; c_nonce := repeat Byte.x02 24;
     c_fb_nonce := repeat Byte.x03 16; c_eph := repeat Byte.x04 32 |}.

Definition rng0 : nat -> coins := fun _ => coins0.

Definition uuid0 : nat -> string := fun _ => "11111111-1111-4111-8111-111111111111".

(** Stand-ins for the JSON codec. *)
Definition json0 (m : Message) : bytes := bytes_of_string (m_id m).
Definition parse_discovery0 (_ : string) : res (option Z * key) := inr KeyError.
Definition parse_routing0 (_ : string) : res (list (option string * res Node)) := inr KeyError.
Definition discovery_json0 (_ : Z) (_ : key) : string := "".
Definition routing_json0 (_ : list Node) : string := "".

(** A [CryptoFallback] envelope: a nonce and a ciphertext. *)
Definition fallback_envelope (nonce ct : bytes) : datagram :=
  DObj [("nonce", FB64 nonce); ("ciphertext", FB64 ct)].

Definition peer (id : string) (last_seen : Z) (pk : key) : Node :=
  {| n_id := id; n_address := "10.0.0.2"; n_port := 8000; n_last_seen := last_seen;
     n_public_key := pk; n_is_active := true |}.

(** A socket that sends every datagram to a port in range and raises
    [OverflowError] for any other port. *)
Definition net0 (_ : nat) (_ : string) (port : Z) (_ : datagram) : res unit :=
  if bool_decide (0 <= port <= 65535)%Z then inl tt else inr OverflowError.

(** Node ["A"] with the given peer table, its keys inserted in the map's
    key order, and processed ids. *)
Definition relay0 (ns : gmap string Node) (p : gset string) : relay :=
  {| node_id := "A"; rport := 8000; public_key := Some (sha256 seed0);
     private_key := Some seed0; nodes := ns; node_order := map fst (map_to_list ns);
     processed_messages := p;
     batman_available := false; draws := 0; socket := net0 |}.

Definition text_msg (id sender : string) (t : Z) : Message :=
  {| m_id := id; sender_id := sender; recipient_id := "broadcast"; m_type := "text";
     content := "hello"; timestamp := 0; ttl := t |}.

Definition parse0 (_ : bytes) : res Message := inl (text_msg "m1" "C" 2).

(** A [uuid4] whose last group starts with a letter. *)
Definition letter_id : string := "00000000-0000-4000-8000-f00000000000".

(** A world of node ["A"] with peer table [ns], processed ids [p] and an
    empty trace. *)
Definition world0 (ns : gmap string Node) (p : gset string) : world :=
  {| rs := relay0 ns p; trace := [] |}.

(** A peer ["B"] that announced no public key. *)
Definition keyless_peers : gmap string Node := {["B" := peer "B" 0 None]}.

(** Payload parsers for witnesses of the discovery and routing handlers. *)
Definition parse_discovery1 (_ : string) : res (option Z * key) :=
  inl (Some 9000, Some seed0).

Definition entries1 : list (option string * res Node) :=
  [(Some "B", inl (peer "B" 9 None)); (Some "D", inl (peer "D" 9 None))].

Definition parse_routing1 (_ : string) : res (list (option string * res Node)) :=
  inl entries1.

(** Three active peers of ["A"]: ["B"] announced no key, ["D"] announced
    a port above 65535, ["E"] is reachable. *)
Definition far_peer : Node :=
  {| n_id := "D"; n_address := "10.0.0.4"; n_port := 70000; n_last_seen := 0;
     n_public_key := Some (sha256 seed0); n_is_active := true |}.

Definition near_peer : Node :=
  {| n_id := "E"; n_address := "10.0.0.5"; n_port := 8000; n_last_seen := 0;
     n_public_key := Some (sha256 seed0); n_is_active := true |}.

Definition mixed_peers : gmap string Node :=
  <["E" := near_peer]> (<["D" := far_peer]> keyless_peers).

(** The addresses and ports of the datagrams sent in a trace. *)
Definition sent_to (t : list event) : list (string * Z) :=
  omap (fun e => match e with Sent a p _ _ => Some (a, p) | _ => None end) t.





End Samples.

(* ================================================================== *)
(** * Properties *)

(* ------------------------------------------------------------------ *)
(** ** Voice activity debounce *)

Module VoiceFacts.
Import Voice.

Lemma vad_step_voiced (st : audio_state) (p : Q) :
  voiced p = true ->
  vad_step st p =
    {| noise := noise st;
       is_speech := if min_speech_frames <=? speech_frames st + 1 then true else is_speech st;
       speech_frames := speech_frames st + 1; silence_frames := 0 |}.
Proof. unfold vad_step, voiced. intros ->. reflexivity. Qed.

Lemma vad_step_unvoiced (st : audio_state) (p : Q) :
  voiced p = false ->
  vad_step st p =
    {| noise := noise st;
       is_speech := if min_silence_frames <=? silence_frames st + 1 then false else is_speech st;
       speech_frames := 0; silence_frames := silence_frames st + 1 |}.
Proof. unfold vad_step, voiced. intros ->. reflexivity. Qed.

Lemma max_run_acc_ge (ps : list Q) :
  forall cur best, (cur <= max_run_acc cur best ps)%nat /\ (best <= max_run_acc cur best ps)%nat.
Proof.
  induction ps as [|p ps IH]; intros cur best; simpl.
  - lia.
  - destruct (voiced p).
    + destruct (IH (S cur) best). lia.
    + destruct (IH 0%nat (Nat.max cur best)). lia.
Qed.

Lemma short_runs_silent (ps : list Q) :
  forall st cur best,
    is_speech st = false -> speech_frames st = Z.of_nat cur ->
    (max_run_acc cur best ps <= 9)%nat ->
    Forall (fun b => b = false) (speech_trace st ps).
Proof.
  induction ps as [|p ps IH]; intros st cur best Hs Hc Hm; simpl; [constructor|].
  simpl in Hm. destruct (voiced p) eqn:Hv.
  - rewrite (vad_step_voiced st p Hv).
    pose proof (max_run_acc_ge ps (S cur) best) as [Hge _].
    assert (Hlt : speech_frames st + 1 < min_speech_frames)
      by (unfold min_speech_frames; lia).
    replace (min_speech_frames <=? speech_frames st + 1) with false
      by (symmetry; apply Z.leb_gt; lia).
    constructor; [exact Hs|].
    eapply (IH _ (S cur) best); simpl; [exact Hs| lia | exact Hm].
  - rewrite (vad_step_unvoiced st p Hv). simpl.
    constructor; [destruct (min_silence_frames <=? _); auto|].
    eapply (IH _ 0%nat (Nat.max cur best)); simpl;
      [destruct (min_silence_frames <=? _); auto | reflexivity | exact Hm].
Qed.

Lemma voiced_stays_speech (ps : list Q) :
  forall st, is_speech st = true -> Forall (fun p => voiced p = true) ps ->
  speech_trace st ps = repeat true (length ps).
Proof.
  induction ps as [|p ps IH]; intros st Hs Hv; simpl; [reflexivity|].
  inversion Hv as [|? ? Hp Hps]; subst.
  rewrite (vad_step_voiced st p Hp). simpl. rewrite Hs.
  destruct (min_speech_frames <=? _); simpl; f_equal; apply IH; auto.
Qed.

Lemma unvoiced_stays_silent (ps : list Q) :
  forall st, is_speech st = false -> Forall (fun p => voiced p = false) ps ->
  speech_trace st ps = repeat false (length ps).
Proof.
  induction ps as [|p ps IH]; intros st Hs Hv; simpl; [reflexivity|].
  inversion Hv as [|? ? Hp Hps]; subst.
  rewrite (vad_step_unvoiced st p Hp). simpl. rewrite Hs.
  destruct (min_silence_frames <=? _); simpl; f_equal; apply IH; auto.
Qed.

Lemma voiced_run_onset (k : nat) :
  forall st ps,
    is_speech st = false -> speech_frames st = Z.of_nat (9 - k) -> (k <= 9)%nat ->
    Forall (fun p => voiced p = true) ps -> (k < length ps)%nat ->
    speech_trace st ps = repeat false k ++ repeat true (length ps - k).
Proof.
  induction k as [|k IH]; intros st ps Hs Hc Hk Hv Hl;
    destruct ps as [|p ps]; simpl in Hl; try lia;
    inversion Hv as [|? ? Hp Hps]; subst; simpl;
    rewrite (vad_step_voiced st p Hp); simpl.
  - replace (min_speech_frames <=? speech_frames st + 1) with true
      by (symmetry; apply Z.leb_le; unfold min_speech_frames; lia).
    f_equal. replace (length ps - 0)%nat with (length ps) by lia.
    apply voiced_stays_speech; auto.
  - replace (min_speech_frames <=? speech_frames st + 1) with false
      by (symmetry; apply Z.leb_gt; unfold min_speech_frames; lia).
    rewrite Hs. f_equal. apply IH; simpl; auto; lia.
Qed.

Lemma unvoiced_run_release (k : nat) :
  forall st ps,
    is_speech st = true -> silence_frames st = Z.of_nat (19 - k) -> (k <= 19)%nat ->
    Forall (fun p => voiced p = false) ps -> (k < length ps)%nat ->
    speech_trace st ps = repeat true k ++ repeat false (length ps - k).
Proof.
  induction k as [|k IH]; intros st ps Hs Hc Hk Hv Hl;
    destruct ps as [|p ps]; simpl in Hl; try lia;
    inversion Hv as [|? ? Hp Hps]; subst; simpl;
    rewrite (vad_step_unvoiced st p Hp); simpl.
  - replace (min_silence_frames <=? silence_frames st + 1) with true
      by (symmetry; apply Z.leb_le; unfold min_silence_frames; lia).
    f_equal. replace (length ps - 0)%nat with (length ps) by lia.
    apply unvoiced_stays_silent; auto.
  - replace (min_silence_frames <=? silence_frames st + 1) with false
      by (symmetry; apply Z.leb_gt; unfold min_silence_frames; lia).
    rewrite Hs. f_equal. apply IH; simpl; auto; lia.
Qed.

(** C6. VAD debounce of [AudioProcessor.process_audio]: from the initial
    silence state, frame sequences whose voiced runs ([vad_prob >= 0.5])
    are at most 9 long never set [is_speech]; from silence, a run of 10 or
    more voiced frames gives [is_speech = false] on the first 9 frames and
    [true] from the 10th on; from speech (right after a voiced frame), 20 or
    more unvoiced frames give [true] on the first 19 and [false] from the
    20th on; a voiced frame resets the silence counter and an unvoiced
    frame resets the speech counter. *)
Theorem vad_debounce :
  (forall ps : list Q, (max_voiced_run ps <= 9)%nat ->
     Forall (fun b => b = false) (speech_trace audio_init ps)) /\
  (forall (st : audio_state) (ps : list Q),
     is_speech st = false -> speech_frames st = 0 ->
     Forall (fun p => voiced p = true) ps -> (10 <= length ps)%nat ->
     speech_trace st ps = repeat false 9 ++ repeat true (length ps - 9)) /\
  (forall (st : audio_state) (ps : list Q),
     is_speech st = true -> silence_frames st = 0 ->
     Forall (fun p => voiced p = false) ps -> (20 <= length ps)%nat ->
     speech_trace st ps = repeat true 19 ++ repeat false (length ps - 19)) /\
  (forall (st : audio_state) (p : Q),
     (voiced p = true -> silence_frames (vad_step st p) = 0) /\
     (voiced p = false -> speech_frames (vad_step st p) = 0)).
Proof.
  split; [|split; [|split]].
  - intros ps H. apply (short_runs_silent ps audio_init 0 0); auto.
  - intros st ps Hs Hc Hv Hl. apply voiced_run_onset; auto; lia.
  - intros st ps Hs Hc Hv Hl. apply unvoiced_run_release; auto; lia.
  - intros st p. split; intros Hv.
    + rewrite (vad_step_voiced st p Hv). reflexivity.
    + rewrite (vad_step_unvoiced st p Hv). reflexivity.
Qed.

End VoiceFacts.

Module BufferFacts.
Import Voice.

Lemma le16_samples_length (n : nat) :
  forall l : bytes, (length l <= n)%nat -> length (le16_samples l) = Nat.div (length l) 2.
Proof.
  induction n as [|n IH]; intros l Hl.
  - destruct l; simpl in *; [reflexivity| lia].
  - destruct l as [|a [|b r]]; [reflexivity|reflexivity|].
    cbn [le16_samples length] in *. rewrite IH by lia.
    replace (S (S (length r))) with (length r + 1 * 2)%nat by lia.
    rewrite Nat.div_add by lia. lia.
Qed.

Lemma pack_length (xs : list Z) : length (pack xs) = (2 * length xs)%nat.
Proof. induction xs as [|x xs IH]; simpl; [reflexivity|]. rewrite IH. lia. Qed.

Lemma broadcast_sub_length (a b d : list Q) :
  broadcast_sub a b = inl d -> length a <> 1%nat -> length d = length a.
Proof.
  unfold broadcast_sub. intros H Ha.
  destruct (Nat.eqb_spec (length a) (length b)) as [E|E].
  - injection H as <-. rewrite length_map, length_combine, E. lia.
  - destruct b as [|y [|y' b]].
    + destruct a as [|x [|x' a]]; [discriminate|cbn in Ha; lia|discriminate].
    + destruct a as [|x [|x' a]]; cbn in H, Ha |- *; [injection H as <-; reflexivity|lia|].
      injection H as <-. cbn. rewrite length_map. reflexivity.
    + destruct a as [|x [|x' a]]; [discriminate|cbn in Ha; lia|discriminate].
Qed.

Lemma unpack_960 (frame : bytes) :
  length frame = 960%nat -> exists ints, unpack frame = inl ints /\ length ints = 480%nat.
Proof.
  intros Hl. unfold unpack. rewrite Hl. simpl. eexists; split; [reflexivity|].
  rewrite (le16_samples_length (length frame)) by lia. rewrite Hl. reflexivity.
Qed.

Lemma process_frame_length (RN : option RNNoiseLib) (ns : noise_state) (frame : bytes) :
  rnnoise_frame_ok RN -> length frame = 960%nat ->
  length (fst (snd (process_frame RN ns frame))) = 960%nat.
Proof.
  intros Hok Hl. destruct (unpack_960 frame Hl) as (ints & Hu & Hi).
  unfold process_frame. destruct RN as [L|].
  - rewrite Hu. rewrite length_map, Hi. simpl.
    destruct (rn_process L (map to_float ints)) as [[den vad]|e] eqn:Hr; simpl; [|exact Hl].
    rewrite pack_length, length_map. simpl in Hok.
    rewrite (Hok _ _ _ Hr), length_map, Hi. reflexivity.
  - unfold process_frame_fallback. rewrite Hu.
    set (xs := map to_float ints).
    assert (Hx : length xs = 480%nat) by (unfold xs; rewrite length_map; exact Hi).
    set (buf := if (DENOISE_BUFFER <? length (nbuffer ns ++ [xs]))%nat
                then tl (nbuffer ns ++ [xs]) else nbuffer ns ++ [xs]).
    destruct (2 <=? length buf)%nat.
    + destruct (column_mean (removelast buf)) as [m|e]; simpl; [|exact Hl].
      destruct (broadcast_sub xs _) as [d|e] eqn:Hd; simpl; [|exact Hl].
      rewrite pack_length, !length_map.
      rewrite (broadcast_sub_length _ _ _ Hd) by (rewrite Hx; discriminate).
      rewrite Hx. reflexivity.
    + simpl. rewrite pack_length, length_map, Hx. reflexivity.
Qed.

Lemma process_audio_length (RN : option RNNoiseLib) (st : audio_state) (f : bytes) :
  rnnoise_frame_ok RN -> length (fst (snd (process_audio RN st f))) = 960%nat.
Proof.
  intros Hok. unfold process_audio.
  set (a := if Nat.eqb (length f) frame_size_bytes then f
            else if (length f <? frame_size_bytes)%nat
            then f ++ repeat Byte.x00 (frame_size_bytes - length f)
            else firstn frame_size_bytes f).
  assert (Ha : length a = 960%nat).
  { unfold a, frame_size_bytes, FRAME_SIZE. simpl.
    destruct (Nat.eqb_spec (length f) 960); [assumption|].
    destruct (Nat.ltb_spec (length f) 960).
    - rewrite length_app, repeat_length. lia.
    - rewrite length_firstn. lia. }
  pose proof (process_frame_length RN (noise st) a Hok Ha) as Hp.
  destruct (process_frame RN (noise st) a) as [ns [den vad]]. exact Hp.
Qed.

Lemma frames_loop_length (RN : option RNNoiseLib) (buf : bytes) (is : list nat) :
  rnnoise_frame_ok RN ->
  forall st out,
  length (snd (fold_left
    (fun acc i =>
       let '(st, out) := acc in
       let start := (i * frame_size_bytes)%nat in
       let frame := firstn frame_size_bytes (skipn start buf) in
       let '(st, (processed, _)) := process_audio RN st frame in
       (st, out ++ processed)) is (st, out)))
  = (length out + 960 * length is)%nat.
Proof.
  intros Hok. induction is as [|i is IH]; intros st out; simpl; [lia|].
  pose proof (process_audio_length RN st
                (firstn frame_size_bytes (skipn (i * frame_size_bytes) buf)) Hok) as Hp.
  destruct (process_audio RN st _) as [st' [pr b]]. simpl in Hp.
  rewrite IH, length_app, Hp. lia.
Qed.

(** C7. [AudioBufferProcessor.process_buffer] cuts the buffer into
    [len / 960] whole 960-byte frames, processes a zero-padded copy of any
    remainder and keeps only the remainder's length of it, and returns
    exactly as many bytes as it was given (for the fallback denoiser, and
    for an [rnnoise] binding that returns frames of the size it receives). *)
Theorem process_buffer_length (RN : option RNNoiseLib) (Hok : rnnoise_frame_ok RN)
  (st : audio_state) (buf : bytes) :
  let n := length buf in
  let r := Nat.modulo n frame_size_bytes in
  let rest := skipn (Nat.div n frame_size_bytes * frame_size_bytes) buf in
  length (snd (process_buffer RN st buf)) = n /\
  exists st' out,
    length out = (960 * Nat.div n 960)%nat /\
    length rest = r /\
    snd (process_buffer RN st buf) =
      out ++ (if (0 <? r)%nat
              then firstn (length rest)
                     (fst (snd (process_audio RN st'
                        (rest ++ repeat Byte.x00 (frame_size_bytes - length rest)))))
              else []).
Proof.
  intros n r rest.
  assert (Hfs : frame_size_bytes = 960%nat) by reflexivity.
  assert (Hdm : n = (frame_size_bytes * Nat.div n frame_size_bytes + r)%nat)
    by (apply Nat.div_mod; discriminate).
  assert (Hrest : length rest = r).
  { unfold rest. rewrite length_skipn. fold n. lia. }
  assert (Hr : (r < frame_size_bytes)%nat) by (apply Nat.mod_upper_bound; discriminate).
  pose proof (frames_loop_length RN buf (seq 0 (Nat.div n frame_size_bytes)) Hok st []) as Hf.
  rewrite length_seq in Hf. cbn [length] in Hf.
  unfold process_buffer. fold n. fold r. fold rest.
  destruct (fold_left _ _ (st, [])) as [st1 out] eqn:Hfold. cbn [snd] in Hf.
  destruct (0 <? r)%nat eqn:Hpos.
  - pose proof (process_audio_length RN st1
                  (rest ++ repeat Byte.x00 (frame_size_bytes - length rest)) Hok) as Hp.
    destruct (process_audio RN st1 _) as [st2 [pr b]] eqn:Hpa. cbn [fst snd] in Hp |- *.
    split.
    + rewrite length_app, length_firstn, Hp, Hf, Hrest. rewrite Hfs in *. lia.
    + exists st1, out. rewrite Hfs in Hf. split; [exact Hf|]. split; [exact Hrest|].
      rewrite Hpa. reflexivity.
  - apply Nat.ltb_ge in Hpos. cbn [snd]. split.
    + rewrite Hf. rewrite Hfs in *. lia.
    + exists st1, out. rewrite Hfs in Hf. split; [exact Hf|]. split; [exact Hrest|].
      rewrite app_nil_r. reflexivity.
Qed.

End BufferFacts.

(* ------------------------------------------------------------------ *)
(** ** The relay monad: traces only grow *)

Module RelayFacts.
Import Crypto Mesh MeshRelay.

(** [self.nodes.items()] lists every entry of the table, each key once. *)
Lemma fst_omap_entries (ns : gmap string Node) (l : list string) (k : string) :
  k ∈ map fst (omap (fun k => (fun n => (k, n)) <$> ns !! k) l) -> k ∈ l.
Proof.
  induction l as [|k' l IH]; simpl; [intros H; inversion H|].
  destruct (ns !! k'); simpl.
  - intros H. apply elem_of_cons in H as [->|H]; [left|right; apply IH, H].
  - intros H. right. apply IH, H.
Qed.

Lemma nodup_omap_entries (ns : gmap string Node) (l : list string) :
  NoDup l -> NoDup (map fst (omap (fun k => (fun n => (k, n)) <$> ns !! k) l)).
Proof.
  induction l as [|k l IH]; intros Hnd; simpl; [constructor|].
  apply NoDup_cons in Hnd as [Hk Hnd].
  destruct (ns !! k); simpl; [|exact (IH Hnd)].
  constructor; [|exact (IH Hnd)].
  intros Hin. apply Hk. exact (fst_omap_entries ns l k Hin).
Qed.

Lemma nodup_fst_filter {B} (Q : string * B -> Prop) `{forall p, Decision (Q p)}
    (l : list (string * B)) :
  NoDup (map fst l) -> NoDup (map fst (filter Q l)).
Proof.
  induction l as [|[k n] l IH]; intros Hnd; [constructor|].
  simpl in Hnd. apply NoDup_cons in Hnd as [Hk Hnd].
  rewrite filter_cons. destruct (decide _); [|exact (IH Hnd)].
  simpl. constructor; [|exact (IH Hnd)].
  intros Hin. apply Hk. apply list_elem_of_In in Hin.
  apply in_map_iff in Hin as ([k' n'] & Hk' & Hin).
  simpl in Hk'. subst k'. apply list_elem_of_In, in_map_iff. exists (k, n').
  split; [reflexivity|].
  apply list_elem_of_In in Hin. apply list_elem_of_filter in Hin as [_ Hin].
  apply list_elem_of_In, Hin.
Qed.

Lemma elem_of_node_items (r : relay) (k : string) (n : Node) :
  (k, n) ∈ node_items r <-> nodes r !! k = Some n.
Proof.
  unfold node_items. rewrite elem_of_app, list_elem_of_omap, list_elem_of_filter,
    elem_of_map_to_list. simpl. split.
  - intros [(k' & _ & Hk')|[_ Hk]]; [|exact Hk].
    destruct (nodes r !! k') eqn:E; simpl in Hk'; [|discriminate].
    injection Hk' as <- <-. exact E.
  - intros Hk. destruct (decide (k ∈ node_order r)) as [Ho|Ho].
    + left. exists k. rewrite elem_of_remove_dups. split; [exact Ho|].
      rewrite Hk. reflexivity.
    + right. split; [exact Ho|exact Hk].
Qed.

Lemma node_items_nodup (r : relay) : NoDup (map fst (node_items r)).
Proof.
  unfold node_items. rewrite map_app. apply NoDup_app. split; [|split].
  - apply nodup_omap_entries, NoDup_remove_dups.
  - intros k Hk Hk'. apply fst_omap_entries in Hk. rewrite elem_of_remove_dups in Hk.
    apply list_elem_of_In, in_map_iff in Hk' as ([k' n'] & Hk' & Hin).
    simpl in Hk'. subst k'. apply list_elem_of_In, list_elem_of_filter in Hin as [Hno _].
    exact (Hno Hk).
  - apply nodup_fst_filter, NoDup_fst_map_to_list.
Qed.

Section Grows.

Variable E : env.
Variable rng : nat -> coins.
Variable uuid4 : nat -> string.
Variable message_json : Message -> bytes.
Variable parse_message : bytes -> res Message.
Variable parse_discovery : string -> res (option Z * key).
Variable parse_routing : string -> res (list (option string * res Node)).
Variable discovery_json : Z -> key -> string.
Variable routing_json : list Node -> string.

Variable P : event -> Prop.
Variable R : relay -> relay -> Prop.
Hypothesis R_refl : forall r, R r r.
Hypothesis R_trans : forall r1 r2 r3, R r1 r2 -> R r2 r3 -> R r1 r3.
Hypothesis R_draws : forall r n, R r (with_draws r n).
Hypothesis R_mark : forall r i, R r (with_processed r ({[i]} ∪ processed_messages r)).

Lemma grows_ret {A} (a : A) : grows P R (mret a).
Proof. intros w. exists []. rewrite app_nil_r. auto. Qed.

Lemma grows_bind {A B} (c : M A) (k : A -> M B) :
  grows P R c -> (forall a, grows P R (k a)) -> grows P R (c ≫= k).
Proof.
  intros Hc Hk w. unfold mbind, M_bind.
  destruct (Hc w) as (n1 & T1 & F1 & R1).
  destruct (c w) as [[a|e] w1]; simpl in *.
  - destruct (Hk a w1) as (n2 & T2 & F2 & R2).
    exists (n1 ++ n2). rewrite T2, T1, app_assoc.
    split; [reflexivity|]. split; [apply Forall_app; auto|]. eauto.
  - exists n1. auto.
Qed.

Lemma grows_get : grows P R get_relay.
Proof. intros w. exists []. rewrite app_nil_r. auto. Qed.

Lemma grows_raise {A} (r : res A) : grows P R (raise_res r).
Proof. intros w. exists []. rewrite app_nil_r. auto. Qed.

Lemma grows_emit (e : event) : P e -> grows P R (emit e).
Proof. intros He w. exists [e]. simpl. auto. Qed.

Lemma grows_try (body : M unit) (h : exc -> M unit) :
  grows P R body -> (forall e, grows P R (h e)) -> grows P R (try_except body h).
Proof.
  intros Hb Hh w. unfold try_except.
  destruct (Hb w) as (n1 & T1 & F1 & R1).
  destruct (body w) as [[u|e] w1]; simpl in *.
  - exists n1. auto.
  - destruct (Hh e w1) as (n2 & T2 & F2 & R2).
    exists (n1 ++ n2). rewrite T2, T1, app_assoc.
    split; [reflexivity|]. split; [apply Forall_app; auto|]. eauto.
Qed.

Lemma grows_for_each {A} (xs : list A) (f : A -> M unit) :
  (forall x, In x xs -> grows P R (f x)) -> grows P R (for_each xs f).
Proof.
  induction xs as [|x xs IH]; intros Hf; simpl.
  - apply grows_ret.
  - apply grows_bind; [apply Hf; left; reflexivity|].
    intros _. apply IH. intros y Hy. apply Hf. right. exact Hy.
Qed.

Lemma grows_fresh_coins : grows P R (fresh_coins rng).
Proof. intros w. exists []. simpl. rewrite app_nil_r. auto. Qed.

Lemma grows_fresh_uuid : grows P R (fresh_uuid uuid4).
Proof. intros w. exists []. simpl. rewrite app_nil_r. auto. Qed.

Lemma grows_mark (i : string) : P (Marked i) -> grows P R (mark_processed i).
Proof. intros Hp w. exists [Marked i]. simpl. auto. Qed.

Lemma grows_set_nodes (ns : gmap string Node) :
  (forall r, R r (with_nodes r ns)) -> grows P R (set_nodes ns).
Proof. intros Hn w. exists []. simpl. rewrite app_nil_r. auto. Qed.

Hypothesis R_nodes : forall r ns o, R r (with_table r ns o).

Lemma grows_set_item (k : string) (v : Node) : grows P R (set_item k v).
Proof. intros w. exists []. simpl. rewrite app_nil_r. split; [reflexivity|]. split; [constructor|apply R_nodes]. Qed.

Lemma grows_sendto (a : string) (p : Z) (m : Message) (d : datagram) :
  P (Sent a p m d) -> grows P R (sendto a p m d).
Proof.
  intros Hs. unfold sendto. apply grows_bind; [apply grows_get|intros r].
  apply grows_bind; [apply grows_raise|intros _]. apply grows_emit, Hs.
Qed.

Ltac gstep :=
  first [ apply grows_ret | apply grows_get | apply grows_raise
        | apply grows_fresh_coins | apply grows_fresh_uuid
        | apply grows_bind; [|intros ?]
        | apply grows_try; [|intros ?] ].

Lemma grows_send_one (m : Message) (json : bytes) (node : Node) :
  (forall a p d, P (Sent a p m d)) -> grows P R (send_one E rng m json node).
Proof.
  intros Hs. unfold send_one. gstep; [|apply grows_ret].
  gstep; [apply grows_fresh_coins|]. gstep; [apply grows_raise|].
  apply grows_sendto, Hs.
Qed.

Lemma grows_relay_message (m : Message) :
  (0 < ttl m -> forall a p d, P (Sent a p m d)) ->
  grows P R (relay_message E rng message_json m).
Proof.
  intros Hs. unfold relay_message. destruct (ttl m <=? 0) eqn:Ht; [apply grows_ret|].
  apply Z.leb_gt in Ht.
  gstep; [apply grows_get|]. apply grows_for_each. intros [nid node] _.
  destruct (_ && _); [apply grows_send_one, Hs, Ht|apply grows_ret].
Qed.

Lemma grows_send_to_all (m : Message) (json : bytes) :
  (forall a p d, P (Sent a p m d)) -> grows P R (send_to_all_nodes E rng m json).
Proof.
  intros Hs. unfold send_to_all_nodes.
  gstep; [apply grows_get|]. apply grows_for_each. intros [nid node] _.
  destruct (_ && _); [apply grows_send_one, Hs|apply grows_ret].
Qed.

Lemma grows_broadcast (m : Message) :
  P (Marked (m_id m)) -> (forall a p d, P (Sent a p m d)) ->
  grows P R (broadcast_message E rng message_json m).
Proof.
  intros Hm Hs. unfold broadcast_message.
  gstep; [apply grows_mark, Hm|]. gstep; [apply grows_get|].
  destruct (batman_available _); [|apply grows_send_to_all, Hs].
  gstep; [|apply grows_send_to_all, Hs].
  gstep; [apply grows_fresh_coins|]. gstep; [apply grows_raise|].
  apply grows_sendto, Hs.
Qed.

(** What [P] must allow for the messages a node originates with a fresh
    [uuid4] id. *)
Hypothesis P_origin : forall m n, m_id m = uuid4 n ->
  P (Marked (m_id m)) /\ forall a p d, P (Sent a p m d).

Lemma grows_uuid_bind (k : string -> M unit) :
  (forall n, grows P R (k (uuid4 n))) -> grows P R (fresh_uuid uuid4 ≫= k).
Proof.
  intros Hk w. destruct (Hk (draws (rs w)) (snd (fresh_uuid uuid4 w)))
    as (n2 & T2 & F2 & R2).
  exists n2. unfold mbind, M_bind. simpl in *. rewrite T2.
  split; [reflexivity|]. split; [exact F2|]. eapply R_trans; [apply R_draws|exact R2].
Qed.

Lemma grows_send_discovery (now : Z) :
  grows P R (send_discovery E rng uuid4 message_json discovery_json now).
Proof.
  unfold send_discovery. apply grows_uuid_bind. intros n.
  gstep; [apply grows_get|].
  match goal with |- grows _ _ (broadcast_message _ _ _ ?m) =>
    destruct (P_origin m n) as [Hm Hs]; [reflexivity|] end.
  apply grows_broadcast; assumption.
Qed.

Lemma grows_send_routing_info (now : Z) :
  grows P R (send_routing_info E rng uuid4 message_json routing_json now).
Proof.
  unfold send_routing_info. gstep; [apply grows_get|].
  apply grows_uuid_bind. intros n. gstep; [apply grows_get|].
  match goal with |- grows _ _ (broadcast_message _ _ _ ?m) =>
    destruct (P_origin m n) as [Hm Hs]; [reflexivity|] end.
  apply grows_broadcast; assumption.
Qed.

Lemma grows_handle_discovery (m : Message) (addr : string) (now : Z) :
  grows P R (handle_discovery E rng uuid4 message_json parse_discovery routing_json m addr now).
Proof.
  unfold handle_discovery. gstep; [apply grows_raise|]. gstep; [apply grows_get|].
  gstep; [apply grows_set_item|].
  destruct (bool_decide _); [apply grows_send_routing_info|apply grows_ret].
Qed.

Lemma grows_handle_routing (m : Message) (now : Z) :
  grows P R (handle_routing parse_routing m now).
Proof.
  unfold handle_routing. gstep; [apply grows_raise|]. apply grows_for_each.
  intros [k built] _. gstep; [apply grows_get|].
  destruct (match k with Some _ => _ | None => _ end); [|apply grows_ret].
  gstep; [apply grows_raise|]. apply grows_set_item.
Qed.

Lemma grows_handle_data (m : Message) :
  P (Delivered m) -> grows P R (handle_data m).
Proof.
  intros Hd. unfold handle_data. gstep; [apply grows_get|].
  destruct (_ || _); [apply grows_emit, Hd|apply grows_ret].
Qed.


(** A fresh message is marked, dispatched, then handled and relayed. *)
Lemma handle_parsed_fresh (m : Message) (addr : string) (now : Z) (w : world) :
  m_id m ∉ processed_messages (rs w) ->
  P (Delivered m) ->
  (0 < ttl m - 1 -> forall a p d, P (Sent a p (set_ttl m (ttl m - 1)) d)) ->
  let w' := snd (handle_parsed E rng uuid4 message_json parse_discovery parse_routing
                   routing_json m addr now w) in
  exists new,
    trace w' = trace w ++ Marked (m_id m) :: Dispatched m :: new /\ Forall P new /\
    R (with_processed (rs w) ({[m_id m]} ∪ processed_messages (rs w))) (rs w').
Proof.
  intros Hnin Hd Hr w'. subst w'.
  remember (handle_parsed _ _ _ _ _ _ _ m addr now w) as X eqn:HX.
  unfold handle_parsed in HX. unfold mbind at 1, M_bind at 1 in HX. cbn [get_relay] in HX.
  rewrite bool_decide_false in HX by exact Hnin.
  unfold mbind at 1 2, M_bind at 1 2 in HX. simpl in HX. subst X.
  match goal with |- context [snd (?T ?w2)] =>
    assert (Hg : grows P R T); [|destruct (Hg w2) as (new & T1 & F1 & R1)] end.
  - gstep.
    + destruct (String.eqb _ _); [apply grows_handle_discovery|].
      destruct (String.eqb _ _); [apply grows_handle_routing|].
      destruct (_ || _); [apply grows_handle_data, Hd|apply grows_ret].
    + destruct (0 <? ttl m) eqn:Ht; [|apply grows_ret].
      apply grows_relay_message. intros Hp. apply Hr. exact Hp.
  - exists new. split; [|split; [exact F1|exact R1]].
    rewrite T1. simpl. rewrite <- !app_assoc. reflexivity.
Qed.





Lemma grows_get_put (f : relay -> relay) :
  (forall r, R r (f r)) -> grows P R (r ← get_relay; put_relay (f r)).
Proof. intros Hf w. exists []. simpl. rewrite app_nil_r. auto. Qed.

Lemma grows_maintain_pass (now : Z) :
  (forall r, R r (with_processed r (gc_processed now (processed_messages r)))) ->
  grows P R (maintain_pass E rng uuid4 message_json discovery_json now).
Proof.
  intros Hgc. unfold maintain_pass. gstep; [|apply grows_ret].
  gstep; [apply grows_get|]. gstep; [apply grows_set_nodes; intros; apply R_nodes|].
  gstep; [apply grows_send_discovery|].
  apply (grows_get_put (fun r => with_processed r (gc_processed now (processed_messages r)))),
    Hgc.
Qed.

End Grows.

Section Receive.

Variable E : env.
Variable rng : nat -> coins.
Variable uuid4 : nat -> string.
Variable message_json : Message -> bytes.
Variable parse_message : bytes -> res Message.
Variable parse_discovery : string -> res (option Z * key).
Variable parse_routing : string -> res (list (option string * res Node)).
Variable routing_json : list Node -> string.

Local Abbreviation handle_parsed :=
  (handle_parsed E rng uuid4 message_json parse_discovery parse_routing routing_json).
Local Abbreviation handle_message :=
  (handle_message E rng uuid4 message_json parse_message parse_discovery parse_routing
     routing_json).



Ltac triv := solve [intros; exact I].

(** A trivial [grows] keeps every event already in the trace. *)
Lemma grows_keep {A} (c : M A) (w : world) (e : event) :
  grows (fun _ => True) (fun _ _ => True) c -> In e (trace w) -> In e (trace (snd (c w))).
Proof.
  intros Hg Hin. destruct (Hg w) as (new & T1 & _ & _). rewrite T1.
  apply in_or_app. left. exact Hin.
Qed.

(** A fresh text or voice message addressed here (or to ["broadcast"]) is
    delivered locally. *)
Lemma handle_parsed_delivers (m : Message) (addr : string) (now : Z) (w : world) :
  m_id m ∉ processed_messages (rs w) ->
  (m_type m = "text" \/ m_type m = "voice") ->
  (recipient_id m = node_id (rs w) \/ recipient_id m = "broadcast") ->
  In (Delivered m) (trace (snd (handle_parsed m addr now w))).
Proof.
  intros Hnin Hty Hrec.
  remember (handle_parsed m addr now w) as X eqn:HX.
  unfold MeshRelay.handle_parsed in HX. unfold mbind at 1, M_bind at 1 in HX.
  cbn [get_relay] in HX. rewrite bool_decide_false in HX by exact Hnin.
  unfold mbind at 1 2, M_bind at 1 2 in HX. simpl in HX.
  assert (Hsel : (String.eqb (m_type m) "discovery" = false /\
                  String.eqb (m_type m) "routing" = false) /\
                 (String.eqb (m_type m) "text" || String.eqb (m_type m) "voice") = true)
    by (destruct Hty as [-> | ->]; (split; [split|]); reflexivity).
  destruct Hsel as [[-> ->] ->] in HX.
  assert (Hdel : (String.eqb (recipient_id m) (node_id (rs w))
                  || String.eqb (recipient_id m) "broadcast") = true).
  { destruct Hrec as [-> | ->]; [rewrite String.eqb_refl; reflexivity|].
    rewrite String.eqb_refl, orb_true_r. reflexivity. }
  unfold mbind at 1, M_bind at 1, handle_data in HX.
  unfold mbind at 1, M_bind at 1 in HX. cbn [get_relay rs with_processed node_id] in HX.
  rewrite Hdel in HX. simpl in HX. subst X.
  apply grows_keep.
  - destruct (0 <? ttl m); [|apply grows_ret; triv].
    apply (grows_relay_message E rng message_json (fun _ => True) (fun _ _ => True)); triv.
  - simpl. apply in_or_app. right. left. reflexivity.
Qed.

(** Claim C1: on a received message with a fresh id (not one this node
    generates itself), every copy of it sent on carries the incoming [ttl]
    minus one, which is positive; so a message arriving with [ttl <= 1]
    (in particular [ttl = 0]) is never forwarded; and a text or voice message
    addressed to this node or to ["broadcast"] is delivered locally whatever
    its [ttl]. *)
Theorem relay_ttl_step (m : Message) (addr : string) (now : Z) (r : relay) :
  m_id m ∉ processed_messages r ->
  (forall n, uuid4 n <> m_id m) ->
  let w' := snd (handle_parsed m addr now {| rs := r; trace := [] |}) in
  (forall a p m' d, In (Sent a p m' d) (trace w') -> m_id m' = m_id m ->
     m' = set_ttl m (ttl m - 1) /\ ttl m' = ttl m - 1 /\ 0 < ttl m') /\
  (ttl m <= 1 -> forall a p m' d, In (Sent a p m' d) (trace w') -> m_id m' <> m_id m) /\
  ((m_type m = "text" \/ m_type m = "voice") ->
   (recipient_id m = node_id r \/ recipient_id m = "broadcast") ->
   In (Delivered m) (trace w')).
Proof.
  intros Hnin Huu w'.
  set (P1 := fun e => match e with
                      | Sent _ _ m' _ =>
                          (m' = set_ttl m (ttl m - 1) /\ 0 < ttl m') \/
                          exists n, m_id m' = uuid4 n
                      | _ => True
                      end).
  destruct (handle_parsed_fresh E rng uuid4 message_json parse_discovery parse_routing
              routing_json P1 (fun _ _ => True) ltac:(triv) ltac:(triv) ltac:(triv)
              ltac:(triv) ltac:(triv)) with (m := m) (addr := addr) (now := now)
    (w := {| rs := r; trace := [] |}) as (new & T1 & F1 & _).
  { intros m0 n Hu. split; [exact I|]. intros a p d. right. exists n. exact Hu. }
  { exact Hnin. }
  { exact I. }
  { intros Hpos a p d. left. split; [reflexivity|]. simpl. lia. }
  assert (Hsent : forall a p m' d, In (Sent a p m' d) (trace w') -> m_id m' = m_id m ->
            m' = set_ttl m (ttl m - 1) /\ ttl m' = ttl m - 1 /\ 0 < ttl m').
  { intros a p m' d Hin Hid. subst w'. rewrite T1 in Hin. simpl in Hin.
    destruct Hin as [Hin|[Hin|Hin]]; try discriminate.
    rewrite List.Forall_forall in F1. destruct (F1 _ Hin) as [[-> Hp]|[n Hu]].
    - split; [reflexivity|]. split; [reflexivity|exact Hp].
    - exfalso. apply (Huu n). rewrite <- Hu. exact Hid. }
  split; [exact Hsent|]. split.
  - intros Hle a p m' d Hin Hid. destruct (Hsent a p m' d Hin Hid) as (_ & Ht & Hp). lia.
  - intros Hty Hrec. apply handle_parsed_delivers; assumption.
Qed.











End Receive.

Section Fanout.

Variable E : env.
Variable rng : nat -> coins.
Variable message_json : Message -> bytes.

(** One [send_one]: one random draw, and a [Sent] exactly when encryption
    under the peer's key and then [sendto] succeed. *)
Lemma send_one_spec (m : Message) (json : bytes) (node : Node) (w : world) :
  let w' := snd (send_one E rng m json node w) in
  fst (send_one E rng m json node w) = inl tt /\
  trace w' = trace w ++ match encrypt_message E json (n_public_key node) (rng (draws (rs w))) with
                        | inl d => match socket (rs w) (S (draws (rs w))) (n_address node)
                                           (n_port node) d with
                                   | inl _ => [Sent (n_address node) (n_port node) m d]
                                   | inr _ => []
                                   end
                        | inr _ => []
                        end /\
  draws (rs w') = S (draws (rs w)) /\ socket (rs w') = socket (rs w).
Proof.
  unfold send_one, sendto, try_except, fresh_coins, mbind, M_bind, mret, M_ret.
  cbn [get_relay put_relay raise_res rs trace draws with_draws socket fst snd].
  destruct (encrypt_message E json (n_public_key node) (rng (draws (rs w)))) as [d'|e];
    simpl; [|auto using app_nil_r].
  destruct (socket (rs w) (S (draws (rs w))) _ _ d'); simpl; auto using app_nil_r.
Qed.

Lemma relay_loop_spec (m : Message) (r : relay) (l : list (string * Node)) (w : world) :
  let c := for_each l (fun '(nid, node) =>
             if bool_decide (nid <> node_id r) && bool_decide (nid <> sender_id m)
                && n_is_active node
             then send_one E rng m (message_json m) node else skip) in
  fst (c w) = inl tt /\
  trace (snd (c w)) = trace w ++ relay_copies E rng message_json (socket (rs w)) m
                                   (filter (fun p => is_target r m p = true) l) (draws (rs w)) /\
  draws (rs (snd (c w))) = (draws (rs w) + length (filter (fun p => is_target r m p = true) l))%nat /\
  socket (rs (snd (c w))) = socket (rs w).
Proof.
  revert w. induction l as [|[nid node] l IH]; intros w c; subst c.
  - simpl. rewrite app_nil_r, Nat.add_0_r. auto.
  - cbn [for_each]. unfold mbind, M_bind.
    destruct (decide (is_target r m (nid, node) = true)) as [Ht|Ht].
    + assert (Hb : bool_decide (nid <> node_id r) && bool_decide (nid <> sender_id m)
                   && n_is_active node = true) by exact Ht.
      rewrite filter_cons_True by exact Ht. rewrite Hb.
      destruct (send_one_spec m (message_json m) node w) as (F & T & D & S1).
      destruct (send_one E rng m (message_json m) node w) as [res1 w1].
      simpl in F, T, D, S1. subst res1. cbv beta iota.
      destruct (IH w1) as (F' & T' & D' & S'). split; [exact F'|]. split; [|split].
      * rewrite T', T, D, S1, <- app_assoc. reflexivity.
      * rewrite D', D. simpl. lia.
      * rewrite S', S1. reflexivity.
    + assert (Hb : bool_decide (nid <> node_id r) && bool_decide (nid <> sender_id m)
                   && n_is_active node = false) by exact (not_true_is_false _ Ht).
      rewrite filter_cons_False by exact Ht. rewrite Hb. exact (IH w).
Qed.

(** The targets of a relay, as a set: the table's entries that are active
    and are neither this node nor the message's sender. *)
Lemma relay_targets_spec (r : relay) (m : Message) (nid : string) (n : Node) :
  (nid, n) ∈ relay_targets r m <->
  nodes r !! nid = Some n /\ nid <> node_id r /\ nid <> sender_id m /\ n_is_active n = true.
Proof.
  unfold relay_targets. rewrite list_elem_of_filter, elem_of_node_items.
  unfold is_target. simpl.
  rewrite !andb_true_iff, !bool_decide_eq_true. tauto.
Qed.

Lemma relay_targets_nodup (r : relay) (m : Message) :
  NoDup (map fst (relay_targets r m)).
Proof.
  unfold relay_targets. apply nodup_fst_filter, node_items_nodup.
Qed.

Lemma relay_copies_all sock (m : Message) (ts : list (string * Node)) (k : nat) :
  (forall nid n k, (nid, n) ∈ ts ->
     exists d, encrypt_message E (message_json m) (n_public_key n) (rng k) = inl d /\
               sock (S k) (n_address n) (n_port n) d = inl tt) ->
  Forall2 (fun e p => exists d k, e = Sent (n_address p.2) (n_port p.2) m d /\
             encrypt_message E (message_json m) (n_public_key p.2) (rng k) = inl d)
    (relay_copies E rng message_json sock m ts k) ts.
Proof.
  revert k. induction ts as [|[nid n] ts IH]; intros k Henc; [constructor|].
  simpl. destruct (Henc nid n k) as (d & Hd & Hs); [left|].
  rewrite Hd, Hs. simpl. constructor.
  - exists d, k. split; [reflexivity|exact Hd].
  - apply IH. intros nid' n' k' Hin. apply (Henc nid'). right. exact Hin.
Qed.

(** Claim C9 (as the code behaves): a relay with [ttl <= 0] does nothing;
    otherwise the copies sent are [relay_copies] over [relay_targets], one
    attempt per target, in the table's insertion order: a copy for a target
    exactly when encrypting the message under that target's own
    [public_key] succeeds and [sendto] to its address and port does not
    raise (an error, e.g. for a peer learnt without a public key or with a
    port above 65535, is logged and that peer gets no copy; the other
    targets are still served). The targets are exactly the table entries
    that are active and are neither this node nor the sender, each once;
    when every target's encryption and [sendto] succeed, the copies
    correspond one to one, in order, to the targets, each sent to the
    target's address and port and encrypted under its key. *)
Theorem relay_fanout (m : Message) (w : world) :
  (ttl m <= 0 -> relay_message E rng message_json m w = (inl tt, w)) /\
  (0 < ttl m ->
   trace (snd (relay_message E rng message_json m w)) =
   trace w ++ relay_copies E rng message_json (socket (rs w)) m (relay_targets (rs w) m)
                (draws (rs w))) /\
  (forall nid n, (nid, n) ∈ relay_targets (rs w) m <->
     nodes (rs w) !! nid = Some n /\ nid <> node_id (rs w) /\ nid <> sender_id m /\
     n_is_active n = true) /\
  NoDup (map fst (relay_targets (rs w) m)) /\
  ((forall nid n k, (nid, n) ∈ relay_targets (rs w) m ->
      exists d, encrypt_message E (message_json m) (n_public_key n) (rng k) = inl d /\
                socket (rs w) (S k) (n_address n) (n_port n) d = inl tt) ->
   Forall2 (fun e p => exists d k, e = Sent (n_address p.2) (n_port p.2) m d /\
              encrypt_message E (message_json m) (n_public_key p.2) (rng k) = inl d)
     (relay_copies E rng message_json (socket (rs w)) m (relay_targets (rs w) m) (draws (rs w)))
     (relay_targets (rs w) m)).
Proof.
  split; [|split; [|split; [|split]]].
  - intros Hle. unfold relay_message.
    replace (ttl m <=? 0) with true by (symmetry; apply Z.leb_le; exact Hle).
    reflexivity.
  - intros Hpos. unfold relay_message.
    replace (ttl m <=? 0) with false by (symmetry; apply Z.leb_gt; exact Hpos).
    unfold mbind at 1, M_bind at 1. cbn [get_relay].
    destruct (relay_loop_spec m (rs w) (node_items (rs w)) w) as (_ & T & _).
    exact T.
  - intros nid n. apply relay_targets_spec.
  - apply relay_targets_nodup.
  - apply relay_copies_all.
Qed.

End Fanout.

Section Maintenance.

Variable E : env.
Variable rng : nat -> coins.
Variable uuid4 : nat -> string.
Variable message_json : Message -> bytes.
Variable discovery_json : Z -> key -> string.

(** [str(n)] starts with ['-'] or a decimal digit: below ['a']. *)
Lemma digits_first_low (fuel : nat) : forall (n : Z) (acc : string), 0 <= n ->
  match acc with EmptyString => True | String c _ => (nat_of_ascii c < 97)%nat end ->
  match digits_of_pos fuel n acc with
  | EmptyString => True
  | String c _ => (nat_of_ascii c < 97)%nat
  end.
Proof.
  induction fuel as [|fuel IH]; intros n acc Hn Hacc; [exact Hacc|].
  assert (Hm : 0 <= n mod 10 < 10) by (apply Z.mod_pos_bound; lia).
  assert (Hd : (nat_of_ascii (ascii_of_nat (Z.to_nat (48 + n mod 10))) < 97)%nat)
    by (rewrite nat_ascii_embedding; lia).
  simpl. destruct (n <? 10); [exact Hd|].
  apply IH; [apply Z.div_pos; lia|exact Hd].
Qed.

Lemma str_of_Z_low (n : Z) :
  match str_of_Z n with EmptyString => True | String c _ => (nat_of_ascii c < 97)%nat end.
Proof.
  unfold str_of_Z. destruct (n <? 0) eqn:Hn.
  - cbv [nat_of_ascii N_of_ascii N_of_digits]. lia.
  - apply digits_first_low; [apply Z.ltb_ge in Hn; lia|exact I].
Qed.

Lemma str_lt_low (a : string) (c : ascii) (s : string) :
  (97 <= nat_of_ascii c)%nat ->
  match a with EmptyString => True | String c' _ => (nat_of_ascii c' < 97)%nat end ->
  str_lt a (String c s) = true.
Proof.
  intros Hc Ha. destruct a as [|c' a]; [reflexivity|]. simpl.
  replace (nat_of_ascii c' <? nat_of_ascii c)%nat with true
    by (symmetry; apply Nat.ltb_lt; lia).
  reflexivity.
Qed.

(** The clean-up keeps every id whose last ['-'] segment starts with a
    letter [a]-[f] (or any character from ['a'] on), whatever the time. *)
Lemma keep_letter_ids (now : Z) (i : string) (c : ascii) (s : string) :
  last_segment i = String c s -> (97 <= nat_of_ascii c)%nat -> keep_msg_id now i = true.
Proof.
  intros Hl Hc. unfold keep_msg_id. rewrite Hl.
  apply str_lt_low; [exact Hc|apply str_of_Z_low].
Qed.

(** Claim C3 (the clean-up does not bound the set): the maintenance pass
    compares the last segment of each id, as a string, with
    [str(int(current_time - 300))]. A [uuid4] id carries no time, and every
    id whose last segment starts with a letter (a hex digit [a]-[f]) compares
    greater than any decimal rendering, so it survives every maintenance
    pass, at any time, however long ago it was processed. *)
Theorem gc_keeps_letter_ids (now : Z) (w : world) (i : string) (c : ascii) (s : string) :
  i ∈ processed_messages (rs w) ->
  last_segment i = String c s -> (97 <= nat_of_ascii c)%nat ->
  i ∈ processed_messages (rs (snd (maintain_pass E rng uuid4 message_json discovery_json
                                     now w))).
Proof.
  intros Hin Hl Hc.
  destruct (grows_maintain_pass E rng uuid4 message_json discovery_json (fun _ => True)
              (fun r r' => i ∈ processed_messages r -> i ∈ processed_messages r'))
    with (now := now) (w := w) as (_ & _ & _ & R1);
    [ intros r H; exact H
    | intros r1 r2 r3 H12 H23 H; apply H23, H12, H
    | intros r n H; exact H
    | intros r j H; simpl; set_solver
    | intros r ns o H; exact H
    | intros; split; [exact I|intros; exact I]
    | intros r H; simpl; apply elem_of_filter; split;
        [apply (keep_letter_ids now i c s Hl Hc)|exact H]
    | exact (R1 Hin) ].
Qed.

(** The maintenance pass leaves in the table exactly [mark_stale] of it:
    the discovery broadcast and the clean-up do not touch [nodes]. *)
Lemma maintain_pass_nodes (now : Z) (w : world) :
  nodes (rs (snd (maintain_pass E rng uuid4 message_json discovery_json now w))) =
  mark_stale now (nodes (rs w)).
Proof.
  remember (maintain_pass E rng uuid4 message_json discovery_json now w) as X eqn:HX.
  unfold maintain_pass, try_except in HX.
  unfold mbind at 1, M_bind at 1 in HX. cbn [get_relay] in HX.
  unfold mbind at 1, M_bind at 1 in HX. simpl in HX. subst X.
  match goal with |- context [match ?T ?w1 with _ => _ end] =>
    destruct (grows_bind (fun _ => True) (fun r r' => nodes r' = nodes r)
                ltac:(intros r1 r2 r3 H12 H23; cbv beta in *; congruence)
                _ _ (grows_send_discovery E rng uuid4 message_json discovery_json
                       (fun _ => True) (fun r r' => nodes r' = nodes r)
                       ltac:(intros; reflexivity)
                       ltac:(intros r1 r2 r3 H12 H23; cbv beta in *; congruence)
                       ltac:(intros; reflexivity) ltac:(intros; reflexivity)
                       ltac:(intros; split; [exact I|intros; exact I]) now)
                (fun _ => grows_get_put (fun _ => True) (fun r r' => nodes r' = nodes r)
                   (fun r => with_processed r (gc_processed now (processed_messages r)))
                   ltac:(intros; reflexivity)) w1) as (_ & _ & _ & R1);
    destruct (T w1) as [[u|e] w'] end;
  exact R1.
Qed.

(** Claim C8 (as the code behaves): a maintenance pass removes no entry
    from the peer table, and sets [is_active] to false exactly for the peers
    with [now - last_seen > 60] (strictly: a peer last seen exactly 60 s ago
    stays active); all other fields, and the flag of the other peers, are
    unchanged. *)
Theorem maintenance_marks_stale (now : Z) (w : world) :
  let ns := nodes (rs w) in
  let ns' := nodes (rs (snd (maintain_pass E rng uuid4 message_json discovery_json now w))) in
  (forall k, is_Some (ns' !! k) <-> is_Some (ns !! k)) /\
  (forall k n, ns !! k = Some n -> exists n', ns' !! k = Some n' /\
     n_is_active n' = n_is_active n && negb (60 <? now - n_last_seen n) /\
     n_id n' = n_id n /\ n_address n' = n_address n /\ n_port n' = n_port n /\
     n_last_seen n' = n_last_seen n /\ n_public_key n' = n_public_key n).
Proof.
  intros ns ns'. subst ns'. rewrite maintain_pass_nodes. unfold mark_stale. split.
  - intros k. rewrite lookup_fmap. apply fmap_is_Some.
  - intros k n Hk. rewrite lookup_fmap. subst ns. rewrite Hk. simpl.
    eexists. split; [reflexivity|].
    destruct (60 <? now - n_last_seen n), (n_is_active n) eqn:Ha; simpl; rewrite ?Ha;
      repeat split; reflexivity.
Qed.

End Maintenance.
End RelayFacts.

(* ------------------------------------------------------------------ *)
(** ** Envelope encryption *)

Module CryptoFacts.
Import Crypto Samples.

(** Claim C4 (round trip without the [kyber] module): with neither PyNaCl
    nor [kyber] importable, encrypting ["hi"] to a freshly generated key
    pair succeeds, but decrypting it with the private key raises: the
    fallback decapsulation computes [sha256(ciphertext + sk)], not the
    shared secret, so the tag check fails, and the [CryptoFallback] retry
    finds no ["nonce"] field. *)
Theorem roundtrip_fails_without_kyber :
  let kp := generate_keypair no_libs seed0 in
  exists d, encrypt_message no_libs (bytes_of_string "hi") (fst kp) coins0 = inl d /\
            decrypt_message no_libs d (snd kp) = inr KeyError.
Proof.
  cbv zeta. eexists. split.
  - vm_compute. reflexivity.
  - vm_compute. reflexivity.
Qed.

(** Claim C5 (as the code behaves): [decrypt_message] has no error of its
    own. (1) Whenever the main path fails (bad fields, bad KEM ciphertext,
    failed tag), the result is that of [CryptoFallback.decrypt] on the same
    envelope; (2) so an object without ["nonce"] and ["epk"] fields decrypts
    only through the main path; (3) an envelope that is not a JSON object
    raises the parsing error; (4) a failing tag makes the main path raise
    [ValueError]; (5) without PyNaCl, any envelope with ["nonce"] and
    ["ciphertext"] fields that the main path rejects is decrypted,
    unauthenticated, by XOR with the keystream of the first 32 bytes of the
    private key and the nonce. *)
Theorem decrypt_failure_modes (E : env) (d : datagram) (sk : key) :
  (forall e, decrypt_main E d sk = inr e -> decrypt_message E d sk = fallback_decrypt E d sk) /\
  (forall fs p, d = DObj fs ->
     find (fun q => String.eqb (fst q) "nonce") fs = None ->
     find (fun q => String.eqb (fst q) "epk") fs = None ->
     decrypt_message E d sk = inl p -> decrypt_main E d sk = inl p) /\
  (forall e, d = DOther e -> decrypt_message E d sk = inr e) /\
  (forall fs kc em ss, d = DObj fs ->
     get_b64 fs "kyber_ciphertext" = inl kc -> get_b64 fs "encrypted_message" = inl em ->
     decapsulate E kc sk = inl ss -> aead_decrypt E em ss = inl None ->
     decrypt_main E d sk = inr ValueError) /\
  (forall fs nonce ct k e, nacl E = None -> d = DObj fs -> decrypt_main E d sk = inr e ->
     get_b64 fs "nonce" = inl nonce -> get_b64 fs "ciphertext" = inl ct -> sk = Some k ->
     decrypt_message E d sk =
     utf8_decode (xor_bytes ct (keystream (firstn 32 k ++ nonce) (length ct)))).
Proof.
  split; [|split; [|split; [|split]]].
  - intros e He. unfold decrypt_message. rewrite He. reflexivity.
  - intros fs p -> Hn He Hp. unfold decrypt_message in Hp.
    destruct (decrypt_main E (DObj fs) sk) as [p'|e] eqn:Hm; [exact Hp|].
    unfold fallback_decrypt, mbind, res_bind in Hp.
    destruct (nacl E); simpl in Hp; unfold get_b64 in Hp;
      [rewrite He in Hp|rewrite Hn in Hp]; discriminate Hp.
  - intros e ->. unfold decrypt_message, fallback_decrypt.
    destruct (nacl E); reflexivity.
  - intros fs kc em ss -> Hk He Hd Ha. unfold decrypt_main, mbind, res_bind. simpl.
    rewrite Hk, He, Hd, Ha. reflexivity.
  - intros fs nonce ct k e HN -> Hm Hn Hc ->. unfold decrypt_message. rewrite Hm.
    unfold fallback_decrypt, mbind, res_bind. rewrite HN. simpl.
    rewrite Hn, Hc. reflexivity.
Qed.

End CryptoFacts.

Module CryptoMore.
Import Crypto.

Lemma bval_range (b : Byte.byte) : 0 <= bval b <= 255.
Proof. unfold bval. pose proof (Byte.to_N_bounded b). lia. Qed.

Lemma byte_of_bval (b : Byte.byte) : byte_of (bval b) = b.
Proof.
  unfold byte_of, bval. rewrite Z.mod_small by (pose proof (Byte.to_N_bounded b); lia).
  rewrite N2Z.id, Byte.of_to_N. reflexivity.
Qed.

Lemma bval_byte_of (z : Z) : bval (byte_of z) = z mod 256.
Proof.
  unfold byte_of, bval.
  assert (Hr : 0 <= z mod 256 < 256) by (apply Z.mod_pos_bound; lia).
  destruct (Byte.of_N (Z.to_N (z mod 256))) as [b|] eqn:Hb.
  - apply Byte.to_of_N in Hb. rewrite Hb. lia.
  - apply Byte.of_N_None_iff in Hb. lia.
Qed.

Lemma byte_of_mod (z : Z) : byte_of (z mod 256) = byte_of z.
Proof. unfold byte_of. rewrite Zmod_mod. reflexivity. Qed.

Lemma bxor_involutive (a b : Byte.byte) : bxor (bxor a b) b = a.
Proof.
  unfold bxor. rewrite bval_byte_of.
  pose proof (bval_range a) as Ha. pose proof (bval_range b) as Hb.
  assert (H : Z.lxor ((Z.lxor (bval a) (bval b)) mod 2 ^ 8) (bval b) mod 2 ^ 8 = bval a).
  { apply Z.bits_inj'. intros n Hn.
    rewrite Z.testbit_mod_pow2 by lia. rewrite Z.lxor_spec, Z.testbit_mod_pow2 by lia.
    rewrite Z.lxor_spec.
    destruct (Z.ltb_spec n 8); simpl.
    - destruct (Z.testbit (bval a) n), (Z.testbit (bval b) n); reflexivity.
    - symmetry. rewrite <- (Z.mod_small (bval a) (2 ^ 8)) by (simpl; lia).
      apply Z.mod_pow2_bits_high. lia. }
  change (2 ^ 8) with 256 in H. rewrite <- byte_of_mod, H. apply byte_of_bval.
Qed.

Lemma xor_bytes_length (m ks : bytes) : length (xor_bytes m ks) = Nat.min (length m) (length ks).
Proof. unfold xor_bytes. rewrite length_map, length_combine. reflexivity. Qed.

Lemma xor_bytes_involutive (m ks : bytes) :
  (length m <= length ks)%nat -> xor_bytes (xor_bytes m ks) ks = m.
Proof.
  revert ks. induction m as [|a m IH]; intros [|b ks] Hl; simpl in *; try reflexivity; [lia|].
  unfold xor_bytes in *. simpl. rewrite bxor_involutive, IH by lia. reflexivity.
Qed.

Lemma round_length (st : list Z) (kw : Z * Z) : length (SHA256.round st kw) = length st.
Proof. unfold SHA256.round. do 9 (destruct st as [|? st]; [reflexivity|]). reflexivity. Qed.

Lemma fold_round_length (l : list (Z * Z)) (st : list Z) :
  length (fold_left SHA256.round l st) = length st.
Proof.
  revert st. induction l as [|kw l IH]; intros st; simpl; [reflexivity|].
  rewrite IH, round_length. reflexivity.
Qed.

Lemma compress_length (hs block : list Z) : length (SHA256.compress hs block) = length hs.
Proof.
  unfold SHA256.compress. rewrite length_map, length_combine, fold_round_length. lia.
Qed.

Lemma fold_compress_length (bs : list (list Z)) (hs : list Z) :
  length (fold_left SHA256.compress bs hs) = length hs.
Proof.
  revert hs. induction bs as [|b bs IH]; intros hs; simpl; [reflexivity|].
  rewrite IH, compress_length. reflexivity.
Qed.

Lemma flat_map_be4_length (l : list Z) : length (flat_map (SHA256.be_bytes 4) l) = (4 * length l)%nat.
Proof.
  induction l as [|x l IH]; [reflexivity|]. cbn [flat_map].
  rewrite length_app, IH. unfold SHA256.be_bytes. rewrite length_map, length_seq. cbn [length]. lia.
Qed.

Lemma sha256_length (m : bytes) : length (sha256 m) = 32%nat.
Proof.
  unfold sha256, SHA256.hash. rewrite length_map, flat_map_be4_length, fold_compress_length.
  reflexivity.
Qed.

Lemma hmac_length (k m : bytes) : length (hmac_sha256 k m) = 32%nat.
Proof. unfold hmac_sha256. apply sha256_length. Qed.

Lemma ks_blocks_length (seed : bytes) (k : nat) : length (ks_blocks seed k) = (32 * k)%nat.
Proof.
  revert seed. induction k as [|k IH]; intros seed; simpl; [reflexivity|].
  rewrite length_app, IH, sha256_length. lia.
Qed.

Lemma keystream_length (seed : bytes) (n : nat) : (n <= length (keystream seed n))%nat.
Proof.
  unfold keystream. rewrite ks_blocks_length.
  pose proof (Nat.div_mod (n + 31) 32 ltac:(lia)).
  pose proof (Nat.mod_upper_bound (n + 31) 32 ltac:(lia)). lia.
Qed.

(** [XChaCha20Poly1305] without PyNaCl: with a 24-byte nonce, [encrypt]
    returns nonce, tag and ciphertext, 56 bytes longer than the message,
    and [decrypt] under the same key returns the message. *)
Theorem aead_fallback_roundtrip (E : env) (m k : bytes) (c : coins) :
  nacl E = None -> length (c_nonce c) = 24%nat ->
  exists ed, aead_encrypt E m k c = inl ed /\ length ed = (56 + length m)%nat /\
             aead_decrypt E ed k = inl (Some m).
Proof.
  intros HN Hn. unfold aead_encrypt, aead_decrypt. rewrite HN.
  set (nonce := c_nonce c). change (c_nonce c) with nonce in Hn.
  set (ct := xor_bytes m (keystream (k ++ nonce) (length m))).
  set (tag := hmac_sha256 k (nonce ++ ct)).
  assert (Htag : length tag = 32%nat) by apply hmac_length.
  assert (Hct : length ct = length m).
  { unfold ct. rewrite xor_bytes_length. pose proof (keystream_length (k ++ nonce) (length m)). lia. }
  exists (nonce ++ tag ++ ct). split; [reflexivity|]. split.
  { rewrite !length_app, Htag, Hct. lia. }
  assert (E1 : firstn 24 (nonce ++ tag ++ ct) = nonce).
  { rewrite <- Hn, firstn_app, firstn_all, Nat.sub_diag, firstn_O, app_nil_r. reflexivity. }
  assert (E2 : skipn 56 (nonce ++ tag ++ ct) = ct).
  { replace 56%nat with (length (nonce ++ tag)) by (rewrite length_app; lia).
    rewrite app_assoc, skipn_app, skipn_all, Nat.sub_diag, skipn_O. reflexivity. }
  assert (E3 : skipn 24 (firstn 56 (nonce ++ tag ++ ct)) = tag).
  { replace 56%nat with (length (nonce ++ tag)) by (rewrite length_app; lia).
    rewrite app_assoc, firstn_app, firstn_all, Nat.sub_diag, firstn_O, app_nil_r.
    rewrite <- Hn, skipn_app, skipn_all, Nat.sub_diag, skipn_O. reflexivity. }
  rewrite E1, E2, E3. fold tag. rewrite bool_decide_true by reflexivity.
  rewrite Hct. f_equal. f_equal. unfold ct. apply xor_bytes_involutive. apply keystream_length.
Qed.


(** [XChaCha20Poly1305.decrypt] without PyNaCl returns [None] on input
    shorter than 56 bytes: the sliced tag is shorter than the HMAC. *)
Theorem aead_fallback_short_rejected (E : env) (ed k : bytes) :
  nacl E = None -> (length ed < 56)%nat -> aead_decrypt E ed k = inl None.
Proof.
  intros HN Hl. unfold aead_decrypt. rewrite HN.
  rewrite bool_decide_false; [reflexivity|]. intros Heq.
  apply (f_equal (@length Byte.byte)) in Heq.
  rewrite hmac_length, length_skipn, length_firstn in Heq. lia.
Qed.

(** [CryptoFallback] without PyNaCl: [decrypt] undoes [encrypt] whenever
    the first 32 bytes of the two keys agree; the result is the UTF-8
    decoding of the message bytes. *)
Theorem fallback_roundtrip (E : env) (m pk sk : bytes) (c : coins) :
  nacl E = None -> firstn 32 pk = firstn 32 sk ->
  exists d, fallback_encrypt E m (Some pk) c = inl d /\
            fallback_decrypt E d (Some sk) = utf8_decode m.
Proof.
  intros HN Hk. unfold fallback_encrypt, fallback_decrypt. rewrite HN.
  cbn -[keystream xor_bytes utf8_decode].
  eexists; split; [reflexivity|]. cbn -[keystream xor_bytes utf8_decode]. rewrite <- Hk.
  rewrite xor_bytes_length.
  pose proof (keystream_length (firstn 32 pk ++ c_fb_nonce c) (length m)) as Hks.
  replace (Nat.min (length m) _) with (length m) by lia.
  rewrite xor_bytes_involutive by exact Hks. reflexivity.
Qed.

(** [encrypt_message] with no public key ([None]) raises [TypeError],
    whichever libraries are present. *)
Theorem encrypt_without_key (E : env) (m : bytes) (c : coins) :
  encrypt_message E m None c = inr TypeError.
Proof.
  unfold encrypt_message, encrypt_main, encapsulate, fallback_encrypt.
  destruct (kyber E), (nacl E); reflexivity.
Qed.

Lemma decapsulate_without_key (E : env) (kc : bytes) : decapsulate E kc None = inr TypeError.
Proof. unfold decapsulate. destruct (kyber E); reflexivity. Qed.

Lemma bind_error_chain {A} (r : res A) (k : A -> res bytes) :
  (forall a, exists e, k a = inr e) -> exists e, (a ← r; k a) = inr e.
Proof. intros H. destruct r as [a|e]; cbn; [apply H|eauto]. Qed.

(** [decrypt_message] with no private key raises, whatever the data. *)
Theorem decrypt_without_key (E : env) (d : datagram) :
  exists e, decrypt_message E d None = inr e.
Proof.
  assert (Hm : exists e, decrypt_main E d None = inr e).
  { unfold decrypt_main. do 3 (apply bind_error_chain; intros ?).
    rewrite decapsulate_without_key. eauto. }
  destruct Hm as [e0 Hm]. unfold decrypt_message. rewrite Hm.
  unfold fallback_decrypt. destruct (nacl E);
    do 3 (apply bind_error_chain; intros ?); cbn; eauto.
Qed.

End CryptoMore.

Module VoiceMore.
Import Voice BufferFacts CryptoMore.

Lemma le16_sample_range (lo hi : Byte.byte) :
  let u := bval lo + 256 * bval hi in int16 (if u <? 32768 then u else u - 65536).
Proof.
  cbn zeta. pose proof (bval_range lo). pose proof (bval_range hi). unfold int16.
  destruct (Z.ltb_spec (bval lo + 256 * bval hi) 32768); lia.
Qed.

Lemma le16_samples_range (l : bytes) : Forall int16 (le16_samples l).
Proof.
  remember (length l) as n eqn:E. assert (Hn : (length l <= n)%nat) by lia. clear E.
  revert l Hn. induction n as [|n IH]; intros l Hn.
  - destruct l; [constructor|simpl in Hn; lia].
  - destruct l as [|lo [|hi r]]; cbn [le16_samples]; try constructor.
    + apply le16_sample_range.
    + apply IH. simpl in Hn. lia.
Qed.

Lemma pack_sample (lo hi : Byte.byte) :
  let u := bval lo + 256 * bval hi in
  pack [if u <? 32768 then u else u - 65536] = [lo; hi].
Proof.
  cbn zeta. pose proof (bval_range lo). pose proof (bval_range hi).
  set (u := bval lo + 256 * bval hi).
  assert (Hm : (if u <? 32768 then u else u - 65536) mod 65536 = u).
  { destruct (Z.ltb_spec u 32768).
    - apply Z.mod_small. unfold u. lia.
    - symmetry. apply (Z.mod_unique (u - 65536) 65536 (-1)); unfold u in *; lia. }
  unfold pack. cbn [flat_map]. rewrite Hm.
  assert (H1 : u mod 256 = bval lo).
  { symmetry. apply (Z.mod_unique u 256 (bval hi)); unfold u; lia. }
  assert (H2 : u / 256 = bval hi).
  { symmetry. apply (Z.div_unique u 256 (bval hi) (bval lo)); unfold u; lia. }
  rewrite H1, H2, !byte_of_bval. reflexivity.
Qed.

Lemma pack_app (xs ys : list Z) : pack (xs ++ ys) = pack xs ++ pack ys.
Proof. unfold pack. apply flat_map_app. Qed.

Lemma pack_cons (x : Z) (xs : list Z) : pack (x :: xs) = pack [x] ++ pack xs.
Proof. reflexivity. Qed.

Lemma pack_le16_samples_n (n : nat) :
  forall l : bytes, (length l <= n)%nat -> Nat.even (length l) = true ->
  pack (le16_samples l) = l.
Proof.
  induction n as [|n IH]; intros l Hn He.
  - destruct l; [reflexivity|simpl in Hn; lia].
  - destruct l as [|lo [|hi r]]; [reflexivity|cbn in He; discriminate He|].
    simpl le16_samples. rewrite pack_cons.
    rewrite pack_sample, IH; [reflexivity| simpl in Hn; lia | exact He].
Qed.

Lemma pack_le16_samples (l : bytes) :
  Nat.even (length l) = true -> pack (le16_samples l) = l.
Proof. apply (pack_le16_samples_n (length l)). lia. Qed.

Lemma le16_pack (xs : list Z) : Forall int16 xs -> le16_samples (pack xs) = xs.
Proof.
  induction 1 as [|x xs Hx _ IH]; [reflexivity|].
  unfold pack. cbn [flat_map app]. fold (pack xs). cbn [le16_samples]. rewrite IH.
  f_equal. unfold int16 in Hx.
  set (u := x mod 65536).
  assert (Hu : 0 <= u < 65536) by (apply Z.mod_pos_bound; lia).
  rewrite !bval_byte_of.
  rewrite (Z.mod_small (u / 256) 256) by (split; [apply Z.div_pos|apply Z.div_lt_upper_bound]; lia).
  rewrite Z.mod_mod by lia.
  replace (u mod 256 + 256 * (u / 256)) with u by (pose proof (Z.div_mod u 256); lia).
  unfold u. destruct (Z.leb_spec 0 x).
  - rewrite Z.mod_small by lia. destruct (Z.ltb_spec x 32768); lia.
  - replace (x mod 65536) with (x + 65536).
    + destruct (Z.ltb_spec (x + 65536) 32768); lia.
    + apply (Z.mod_unique x 65536 (-1)); lia.
Qed.

(** [struct.pack]/[struct.unpack] with format [h]: unpacking packed
    16-bit samples gives them back, and an even-length byte string unpacks
    and packs back to itself. *)
Theorem struct_roundtrip (xs : list Z) (l : bytes) :
  (Forall int16 xs -> unpack (pack xs) = inl xs) /\
  (Nat.even (length l) = true -> unpack l = inl (le16_samples l) /\ pack (le16_samples l) = l).
Proof.
  split.
  - intros Hx. unfold unpack. rewrite pack_length, Nat.even_mul. cbn. rewrite le16_pack by exact Hx.
    reflexivity.
  - intros He. unfold unpack. rewrite He. split; [reflexivity|]. apply pack_le16_samples, He.
Qed.


Lemma to_int16_to_float (s : Z) : int16 s -> to_int16 (to_float s) = s.
Proof.
  unfold int16, to_int16, to_float. intros Hs.
  assert (Ht : (if Qle_bool 0 (Qmult (Qmake s 32768) (inject_Z 32768))
               then Qfloor (Qmult (Qmake s 32768) (inject_Z 32768))
               else - Qfloor (Qopp (Qmult (Qmake s 32768) (inject_Z 32768)))) = s).
  { destruct (Qle_bool _ _); cbn.
    - rewrite Z.div_mul by lia. reflexivity.
    - replace (- (s * 32768)) with ((- s) * 32768) by lia. rewrite Z.div_mul by lia. lia. }
  cbn zeta. rewrite Ht.
  rewrite Z.mod_small by lia. lia.
Qed.

Lemma map_to_int16_to_float (ints : list Z) :
  Forall int16 ints -> map to_int16 (map to_float ints) = ints.
Proof.
  induction 1 as [|x xs Hx _ IH]; [reflexivity|].
  cbn. rewrite to_int16_to_float, IH by exact Hx. reflexivity.
Qed.

(** [AudioProcessor.process_audio] without RNNoise, on a fresh processor:
    the first frame comes back unchanged, after padding with zero bytes or
    trimming to 960 bytes. *)
Theorem first_frame_passthrough (f : bytes) :
  fst (snd (process_audio None audio_init f)) =
  firstn 960 (f ++ repeat Byte.x00 (960 - length f)).
Proof.
  unfold process_audio.
  set (a := if Nat.eqb (length f) frame_size_bytes then f
            else if (length f <? frame_size_bytes)%nat
            then f ++ repeat Byte.x00 (frame_size_bytes - length f)
            else firstn frame_size_bytes f).
  assert (Ha : a = firstn 960 (f ++ repeat Byte.x00 (960 - length f))).
  { unfold a, frame_size_bytes, FRAME_SIZE. cbn [Nat.mul Nat.add].
    destruct (Nat.eqb_spec (length f) 960) as [E|E].
    - rewrite E, Nat.sub_diag, app_nil_r, firstn_all2 by lia. reflexivity.
    - destruct (Nat.ltb_spec (length f) 960).
      + rewrite firstn_all2; [reflexivity|]. rewrite length_app, repeat_length. lia.
      + replace (960 - length f)%nat with 0%nat by lia. rewrite app_nil_r. reflexivity. }
  assert (Hl : length a = 960%nat).
  { rewrite Ha, length_firstn, length_app, repeat_length. lia. }
  destruct (unpack_960 a Hl) as (ints & Hu & Hi).
  assert (Hints : ints = le16_samples a).
  { unfold unpack in Hu. destruct (Nat.even (length a)); congruence. }
  cbn [process_frame noise audio_init]. unfold process_frame_fallback. rewrite Hu.
  cbn [nbuffer app length DENOISE_BUFFER Nat.ltb Nat.leb]. cbn.
  rewrite map_to_int16_to_float by (rewrite Hints; apply le16_samples_range).
  rewrite Hints, pack_le16_samples, Ha; [reflexivity|].
  rewrite Hl. reflexivity.
Qed.

Lemma mean_nonneg (xs : list Q) : Forall (fun x => 0 <= x)%Q xs -> (0 <= mean xs)%Q.
Proof.
  intros H. unfold mean, Qdiv. apply Qmult_le_0_compat.
  - induction H as [|x xs Hx _ IH]; cbn; [apply Qle_refl|].
    apply (Qplus_le_compat 0 x 0 _) in IH; [|exact Hx]. exact IH.
  - apply Qinv_le_0_compat. unfold Qle. cbn. lia.
Qed.

(** [_process_frame_fallback] returns a VAD probability between 0 and 1. *)
Theorem fallback_vad_range (ns : noise_state) (f : bytes) :
  (0 <= snd (snd (process_frame_fallback ns f)) <= 1)%Q.
Proof.
  unfold process_frame_fallback.
  destruct (unpack f) as [ints|e]; [|cbn; split; discriminate].
  match goal with |- context [match ?dd with inl _ => (_, _) | inr _ => (_, _) end] =>
    destruct dd as [d|e] end; [|cbn; split; discriminate].
  cbn [snd]. destruct d as [|x0 d0]; [split; discriminate|].
  set (d := x0 :: d0).
  assert (He : (0 <= mean (map (fun x => Qmult x x) d))%Q).
  { apply mean_nonneg. apply List.Forall_forall. intros y Hy. apply in_map_iff in Hy.
    destruct Hy as ([xn xd] & <- & _). unfold Qle. cbn. nia. }
  set (e := mean (map (fun x => Qmult x x) d)) in *.
  destruct (Qle_bool 1 (e * inject_Z 20)) eqn:Hq.
  - split; discriminate.
  - split.
    + apply Qmult_le_0_compat; [exact He|]. unfold Qle. cbn. lia.
    + apply Qlt_le_weak. apply Qnot_le_lt. intros Hle.
      apply Qle_bool_iff in Hle. congruence.
Qed.

(** [process_audio] keeps the fallback's frame buffer at most
    [DENOISE_BUFFER] frames long. *)
Theorem noise_buffer_bounded (RN : option RNNoiseLib) (st : audio_state) (f : bytes) :
  (length (nbuffer (noise st)) <= DENOISE_BUFFER)%nat ->
  (length (nbuffer (noise (fst (process_audio RN st f)))) <= DENOISE_BUFFER)%nat.
Proof.
  intros Hb. unfold process_audio.
  match goal with |- context [process_frame RN (noise st) ?a] =>
    set (a0 := a) end.
  assert (Hf : (length (nbuffer (fst (process_frame RN (noise st) a0))) <= DENOISE_BUFFER)%nat).
  { unfold process_frame. destruct RN as [L|].
    - destruct (unpack a0) as [ints|e]; [|exact Hb].
      destruct (rn_process L _) as [[den vad]|e]; exact Hb.
    - unfold process_frame_fallback.
      destruct (unpack a0) as [ints|e]; [|exact Hb].
      set (buf0 := nbuffer (noise st) ++ [map to_float ints]).
      assert (Hbuf : (length (if (DENOISE_BUFFER <? length buf0)%nat then tl buf0 else buf0)
                      <= DENOISE_BUFFER)%nat).
      { unfold buf0. rewrite length_app. cbn [length].
        destruct (Nat.ltb_spec DENOISE_BUFFER (length (nbuffer (noise st)) + 1)).
        - destruct (nbuffer (noise st) ++ [map to_float ints]) eqn:E.
          + cbn. lia.
          + apply (f_equal (@length _)) in E. rewrite length_app in E. cbn in E |- *. lia.
        - rewrite length_app. cbn [length]. lia. }
      match goal with |- context [match ?dd with inl _ => (_, _) | inr _ => (_, _) end] =>
        destruct dd end; exact Hbuf. }
  destruct (process_frame RN (noise st) a0) as [ns [den vad]].
  unfold vad_step. cbn in Hf |- *. destruct (Qle_bool _ _); exact Hf.
Qed.

(** [process_audio] returns a frame of 960 bytes, when the RNNoise
    library (if any) returns as many samples as it is given. *)
Theorem process_audio_frame_length (RN : option RNNoiseLib) (st : audio_state) (f : bytes) :
  rnnoise_frame_ok RN -> length (fst (snd (process_audio RN st f))) = 960%nat.
Proof. apply process_audio_length. Qed.

End VoiceMore.

Module DetectorMore.
Import Voice Detector.

(** [BasicVoiceDetector.process_frame] on a run of loud frames: the i-th
    answer is true exactly when the detector was already in speech or its
    speech count plus i reaches [min_frames]. *)
Theorem detector_loud_run (d : detector) (fs : list bytes) :
  Forall (fun f => exists ints, unpack f = inl ints /\
                     loud (energy_threshold d) (map to_float ints) = true) fs ->
  detector_run d fs =
  map (fun i => d_is_speech d || (min_frames d <=? d_speech_frames d + Z.of_nat i))
      (seq 1 (length fs)).
Proof.
  revert d. induction fs as [|f fs IH]; intros d Hall; [reflexivity|].
  inversion Hall as [|f' fs' [ints [Hu Hl]] Hrest]; subst.
  cbn [detector_run]. unfold detector_process_frame at 1. rewrite Hu, Hl.
  cbn [length seq map].
  rewrite IH by exact Hrest. cbn [d_is_speech d_speech_frames min_frames].
  f_equal.
  - change (Z.of_nat 1) with 1. destruct (Z.leb_spec (min_frames d) (d_speech_frames d + 1)), (d_is_speech d); reflexivity.
  - rewrite <- (seq_shift _ 1), map_map. apply map_ext. intros i.
    destruct (Z.leb_spec (min_frames d) (d_speech_frames d + 1)),
      (Z.leb_spec (min_frames d) (d_speech_frames d + 1 + Z.of_nat i)),
      (Z.leb_spec (min_frames d) (d_speech_frames d + Z.of_nat (S i))),
      (d_is_speech d); try reflexivity; lia.
Qed.

(** [BasicVoiceDetector.process_frame]: an odd-length frame leaves the
    detector unchanged and answers false; a quiet frame resets the speech
    count and the speech flag and answers false. *)
Theorem detector_quiet_or_malformed (d : detector) (f : bytes) :
  (Nat.even (length f) = false -> detector_process_frame d f = (d, false)) /\
  (Nat.even (length f) = true ->
   loud (energy_threshold d) (map to_float (le16_samples f)) = false ->
   detector_process_frame d f =
   ({| energy_threshold := energy_threshold d; min_frames := min_frames d;
       d_speech_frames := 0; d_is_speech := false |}, false)).
Proof.
  unfold detector_process_frame, unpack. split.
  - intros He. rewrite He. reflexivity.
  - intros He Hl. rewrite He, Hl. reflexivity.
Qed.

End DetectorMore.

Module CommandsMore.
Import Commands.

Lemma lower_char_space (c : ascii) : is_space (lower_char c) = is_space c.
Proof. destruct c as [[] [] [] [] [] [] [] []]; reflexivity. Qed.

Lemma str_app_cons (c : ascii) (s t : string) : (String c s ++ t)%string = String c (s ++ t).
Proof. reflexivity. Qed.

Lemma str_app_empty (t : string) : (EmptyString ++ t)%string = t.
Proof. reflexivity. Qed.

Lemma lower_app (s t : string) : lower (s ++ t) = (lower s ++ lower t)%string.
Proof.
  induction s as [|c s IH]; [reflexivity|].
  rewrite str_app_cons. cbn [lower]. rewrite str_app_cons, IH. reflexivity.
Qed.

Lemma str_app_assoc (a b c : string) : ((a ++ b) ++ c)%string = (a ++ (b ++ c))%string.
Proof. induction a as [|x a IH]; [reflexivity|]. rewrite !str_app_cons, IH. reflexivity. Qed.

Lemma str_app_nil (a : string) : (a ++ EmptyString)%string = a.
Proof. induction a as [|x a IH]; [reflexivity|]. rewrite str_app_cons, IH. reflexivity. Qed.

Lemma lower_join (xs : list string) : lower (join xs) = join (map lower xs).
Proof.
  induction xs as [|x [|y xs] IH]; [reflexivity|reflexivity|].
  unfold join in *. change (String.concat " " (x :: y :: xs))
    with (x ++ " " ++ String.concat " " (y :: xs))%string.
  rewrite !lower_app, IH. reflexivity.
Qed.

Lemma split_acc_word (w s cur : string) :
  forallb (fun c => negb (is_space c)) (list_ascii_of_string w) = true ->
  split_acc (w ++ s) cur = split_acc s (cur ++ w).
Proof.
  revert cur. induction w as [|c w IH]; intros cur Hw.
  - simpl. rewrite str_app_nil. reflexivity.
  - cbn [list_ascii_of_string forallb] in Hw. apply andb_prop in Hw as [Hc Hw].
    rewrite str_app_cons. cbn [split_acc]. apply negb_true_iff in Hc. rewrite Hc, IH by exact Hw.
    rewrite str_app_assoc. reflexivity.
Qed.

Lemma split_join (ws : list string) :
  ws <> [] ->
  Forall (fun w => w <> EmptyString /\
           forallb (fun c => negb (is_space c)) (list_ascii_of_string w) = true) ws ->
  split (join ws) = ws.
Proof.
  intros Hne Hall. unfold split.
  induction Hall as [|w ws [Hw Hs] Hrest IH]; [congruence|].
  destruct ws as [|w2 ws].
  - unfold join. cbn [String.concat]. rewrite <- (str_app_nil w) at 1.
    rewrite split_acc_word by exact Hs. cbn. destruct w; [congruence|reflexivity].
  - unfold join in *. change (String.concat " " (w :: w2 :: ws))
      with (w ++ " " ++ String.concat " " (w2 :: ws))%string.
    rewrite split_acc_word by exact Hs. rewrite str_app_cons, !str_app_empty.
    cbn [split_acc]. replace (is_space " ") with true by reflexivity.
    destruct w as [|c w]; [congruence|]. rewrite IH by discriminate. reflexivity.
Qed.

Lemma lower_word (w : string) :
  w <> EmptyString /\ forallb (fun c => negb (is_space c)) (list_ascii_of_string w) = true ->
  lower w <> EmptyString /\
  forallb (fun c => negb (is_space c)) (list_ascii_of_string (lower w)) = true.
Proof.
  intros [Hne Hs]. split; [destruct w; [congruence|discriminate]|].
  clear Hne. induction w as [|c w IH]; [reflexivity|].
  cbn [lower list_ascii_of_string forallb] in *. rewrite lower_char_space.
  apply andb_prop in Hs as [Hc Hs]. rewrite Hc, IH by exact Hs. reflexivity.
Qed.

(** [VoiceCommandProcessor.process_command] on words without whitespace:
    the lower-cased first word selects its handler, applied to the
    lower-cased other words; an unknown first word gets the
    "Unknown command" answer listing the four commands. *)
Theorem command_dispatch (w : string) (ps : list string) :
  Forall (fun x => x <> EmptyString /\
           forallb (fun c => negb (is_space c)) (list_ascii_of_string x) = true) (w :: ps) ->
  (forall h, In (lower w, h) commands -> process_command (join (w :: ps)) = h (map lower ps)) /\
  (Forall (fun p => fst p <> lower w) commands ->
   process_command (join (w :: ps)) =
   [("success", JBool false); ("message", JStr ("Unknown command: " ++ lower w));
    ("available_commands", JStrs ["call"; "message"; "sos"; "help"])]).
Proof.
  intros Hall.
  assert (Hs : split (lower (join (w :: ps))) = lower w :: map lower ps).
  { rewrite lower_join. apply (split_join (map lower (w :: ps))); [discriminate|].
    apply Forall_map. eapply Forall_impl; [exact Hall|]. intros x Hx. apply lower_word, Hx. }
  unfold process_command. rewrite Hs. split.
  - intros h Hin. cbn in Hin.
    destruct Hin as [E|[E|[E|[E|[]]]]]; injection E as E1 E2; subst h; rewrite <- E1; reflexivity.
  - intros Hf. destruct (find _ commands) as [[n h]|] eqn:Hfind; [|reflexivity].
    apply find_some in Hfind as [Hin Heq]. apply String.eqb_eq in Heq. cbn in Heq.
    rewrite List.Forall_forall in Hf. apply Hf in Hin. contradiction.
Qed.

Lemma split_acc_nil (s cur : string) :
  split_acc s cur = [] <-> cur = EmptyString /\ forallb is_space (list_ascii_of_string s) = true.
Proof.
  revert cur. induction s as [|c s IH]; intros cur.
  - cbn. destruct cur; split; intuition discriminate.
  - cbn [split_acc list_ascii_of_string forallb]. destruct (is_space c) eqn:Hc.
    + destruct cur as [|c' cur].
      * rewrite IH. cbn. intuition.
      * split; [discriminate|intros [? _]; discriminate].
    + rewrite IH. cbn. split; [intros [H _]; destruct cur; discriminate|intros [_ H]; discriminate].
Qed.

Lemma all_space_lower (s : string) :
  forallb is_space (list_ascii_of_string (lower s)) = forallb is_space (list_ascii_of_string s).
Proof.
  induction s as [|c s IH]; [reflexivity|].
  cbn [lower list_ascii_of_string forallb]. rewrite lower_char_space, IH. reflexivity.
Qed.

(** [process_command] answers "Empty command" exactly when the text
    consists of whitespace only. *)
Theorem empty_command_iff_blank (text : string) :
  process_command text = [("success", JBool false); ("message", JStr "Empty command")] <->
  forallb is_space (list_ascii_of_string text) = true.
Proof.
  rewrite <- all_space_lower. unfold process_command, split. split.
  - destruct (split_acc (lower text) EmptyString) as [|cmd ps] eqn:Hs.
    + intros _. apply split_acc_nil in Hs. apply Hs.
    + destruct (find _ commands) as [[n h]|] eqn:Hfind; [|discriminate].
      apply find_some in Hfind as [Hin _]. cbn in Hin.
      destruct Hin as [E|[E|[E|[E|[]]]]]; injection E as <- <-.
      * destruct ps; discriminate.
      * unfold handle_message. destruct (length ps <? 2)%nat; discriminate.
      * discriminate.
      * discriminate.
  - intros Hb. assert (Hs : split_acc (lower text) EmptyString = []) by (apply split_acc_nil; auto).
    rewrite Hs. reflexivity.
Qed.

End CommandsMore.

Module RelayMore.
Import Crypto Mesh MeshRelay RelayFacts.

Section Ops.

Variable E : env.
Variable rng : nat -> coins.
Variable uuid4 : nat -> string.
Variable message_json : Message -> bytes.
Variable parse_message : bytes -> res Message.
Variable parse_discovery : string -> res (option Z * key).
Variable parse_routing : string -> res (list (option string * res Node)).
Variable discovery_json : Z -> key -> string.
Variable routing_json : list Node -> string.

Lemma with_draws_twice (r : relay) (a b : nat) : with_draws (with_draws r a) b = with_draws r b.
Proof. reflexivity. Qed.

Lemma with_draws_same (r : relay) : with_draws r (draws r) = r.
Proof. destruct r; reflexivity. Qed.

Lemma send_one_rs (m : Message) (json : bytes) (node : Node) (w : world) :
  rs (snd (send_one E rng m json node w)) = with_draws (rs w) (S (draws (rs w))).
Proof.
  unfold send_one, sendto, try_except, fresh_coins, mbind, M_bind, mret, M_ret.
  cbn [get_relay put_relay raise_res rs trace draws with_draws socket fst snd].
  destruct (encrypt_message E json (n_public_key node) (rng (draws (rs w)))) as [d|e];
    [|reflexivity].
  simpl. destruct (socket (rs w) _ _ _ d); reflexivity.
Qed.

(** The per-peer loops of [_send_to_all_nodes] and [_relay_message], for
    any selection [g] of the entries. *)
Lemma send_loop_spec (m : Message) (g : string -> Node -> bool)
    (l : list (string * Node)) (w : world) :
  let c := for_each l (fun '(nid, node) =>
             if g nid node then send_one E rng m (message_json m) node else skip) in
  let ts := filter (fun p => g p.1 p.2 = true) l in
  fst (c w) = inl tt /\
  trace (snd (c w)) = trace w ++ relay_copies E rng message_json (socket (rs w)) m ts
                                   (draws (rs w)) /\
  rs (snd (c w)) = with_draws (rs w) (draws (rs w) + length ts).
Proof.
  revert w. induction l as [|[nid node] l IH]; intros w c ts; subst c ts.
  - simpl. rewrite app_nil_r, Nat.add_0_r, with_draws_same. auto.
  - cbn [for_each]. unfold mbind, M_bind.
    destruct (g nid node) eqn:Hg.
    + rewrite filter_cons_True by (cbn; exact Hg).
      destruct (send_one_spec E rng m (message_json m) node w) as (F & T & _).
      pose proof (send_one_rs m (message_json m) node w) as Rw.
      destruct (send_one E rng m (message_json m) node w) as [res1 w1].
      simpl in F, T, Rw. subst res1.
      destruct (IH w1) as (F' & T' & R'). split; [exact F'|]. split.
      * rewrite T', T, Rw, <- app_assoc. reflexivity.
      * rewrite R', Rw. cbn [draws with_draws]. rewrite with_draws_twice. f_equal. simpl. lia.
    + rewrite filter_cons_False by (cbn; rewrite Hg; discriminate). exact (IH w).
Qed.

(** [_broadcast_message], whole: the id is recorded, then either the
    BATMAN datagram or the per-peer copies are sent; it never raises. *)
Lemma broadcast_run (m : Message) (w : world) :
  let r := rs w in
  let ts := filter (fun p => bool_decide (p.1 <> node_id r) && n_is_active p.2 = true)
              (node_items r) in
  let w' := snd (broadcast_message E rng message_json m w) in
  fst (broadcast_message E rng message_json m w) = inl tt /\
  trace w' = trace w ++ Marked (m_id m) ::
    (if batman_available r then
       match encrypt_message E (message_json m) (public_key r) (rng (draws r)) with
       | inl d => match socket r (S (draws r)) BATMAN_BROADCAST (rport r) d with
                  | inl _ => [Sent BATMAN_BROADCAST (rport r) m d]
                  | inr _ => relay_copies E rng message_json (socket r) m ts (S (draws r))
                  end
       | inr _ => relay_copies E rng message_json (socket r) m ts (S (draws r))
       end
     else relay_copies E rng message_json (socket r) m ts (draws r)) /\
  exists n, rs w' = with_draws (with_processed r ({[m_id m]} ∪ processed_messages r)) n.
Proof.
  intros r ts w'. subst r ts w'.
  unfold broadcast_message, mark_processed, mbind, M_bind.
  cbn [get_relay put_relay emit rs trace].
  set (r1 := with_processed (rs w) ({[m_id m]} ∪ processed_messages (rs w))).
  change (batman_available r1) with (batman_available (rs w)).
  change (public_key r1) with (public_key (rs w)). change (rport r1) with (rport (rs w)).
  destruct (batman_available (rs w)).
  - unfold try_except, fresh_coins, mbind, M_bind, mret, M_ret.
    cbn [get_relay put_relay raise_res emit rs trace].
    change (draws r1) with (draws (rs w)).
    destruct (encrypt_message E (message_json m) (public_key (rs w)) (rng (draws (rs w))))
      as [d|e].
    + unfold sendto, mbind, M_bind. cbn [get_relay put_relay raise_res emit rs trace].
      change (socket (with_draws r1 (S (draws (rs w))))) with (socket (rs w)).
      change (draws (with_draws r1 (S (draws (rs w))))) with (S (draws (rs w))).
      destruct (socket (rs w) (S (draws (rs w))) BATMAN_BROADCAST (rport (rs w)) d) as [u|e].
      * cbn. split; [reflexivity|]. split; [rewrite <- app_assoc; reflexivity|].
        exists (S (draws (rs w))). reflexivity.
      * cbn [raise_res]. unfold send_to_all_nodes, mbind, M_bind. cbn [get_relay rs].
        change (node_id (with_draws r1 (S (draws (rs w))))) with (node_id r1).
        match goal with |- context [for_each ?l ?f ?w2] =>
          destruct (send_loop_spec m (fun nid node => bool_decide (nid <> node_id r1)
                                                    && n_is_active node) l w2)
            as (F & T & R2) end.
        cbn beta in F, T, R2. rewrite F. split; [reflexivity|]. split.
        -- rewrite T. cbn [trace rs draws with_draws]. rewrite <- app_assoc. reflexivity.
        -- rewrite R2. eexists. reflexivity.
    + unfold send_to_all_nodes, mbind, M_bind. cbn [get_relay rs].
      change (node_id (with_draws r1 (S (draws (rs w))))) with (node_id r1).
      match goal with |- context [for_each ?l ?f ?w2] =>
        destruct (send_loop_spec m (fun nid node => bool_decide (nid <> node_id r1)
                                                  && n_is_active node) l w2)
          as (F & T & R2) end.
      cbn beta in F, T, R2. rewrite F. split; [reflexivity|]. split.
      * rewrite T. cbn [trace rs draws with_draws]. rewrite <- app_assoc. reflexivity.
      * rewrite R2. eexists. reflexivity.
  - unfold send_to_all_nodes, mbind, M_bind. cbn [get_relay rs].
    match goal with |- context [for_each ?l ?f ?w2] =>
      destruct (send_loop_spec m (fun nid node => bool_decide (nid <> node_id r1)
                                                && n_is_active node) l w2)
        as (F & T & R2) end.
    cbn beta in F, T, R2. rewrite F. split; [reflexivity|]. split.
    + rewrite T. cbn [trace rs draws]. rewrite <- app_assoc. reflexivity.
    + rewrite R2. eexists. reflexivity.
Qed.


(** [_broadcast_message] marks the message processed, then sends one
    BATMAN broadcast when BATMAN is available and both encryption and
    [sendto] to the BATMAN broadcast address succeed, and otherwise tries
    one copy for every other active peer, in the table's insertion order. *)
Theorem broadcast_sends (m : Message) (w : world) :
  let r := rs w in
  let ts := filter (fun p => bool_decide (p.1 <> node_id r) && n_is_active p.2 = true)
              (node_items r) in
  trace (snd (broadcast_message E rng message_json m w)) = trace w ++ Marked (m_id m) ::
    (if batman_available r then
       match encrypt_message E (message_json m) (public_key r) (rng (draws r)) with
       | inl d => match socket r (S (draws r)) BATMAN_BROADCAST (rport r) d with
                  | inl _ => [Sent BATMAN_BROADCAST (rport r) m d]
                  | inr _ => relay_copies E rng message_json (socket r) m ts (S (draws r))
                  end
       | inr _ => relay_copies E rng message_json (socket r) m ts (S (draws r))
       end
     else relay_copies E rng message_json (socket r) m ts (draws r)).
Proof. apply broadcast_run. Qed.

Lemma send_discovery_run (now : Z) (w : world) :
  let w' := snd (send_discovery E rng uuid4 message_json discovery_json now w) in
  fst (send_discovery E rng uuid4 message_json discovery_json now w) = inl tt /\
  nodes (rs w') = nodes (rs w) /\
  processed_messages (rs w') = {[uuid4 (draws (rs w))]} ∪ processed_messages (rs w).
Proof.
  intros w'. subst w'. unfold send_discovery, fresh_uuid, mbind, M_bind, mret, M_ret.
  cbn [get_relay put_relay rs trace].
  match goal with |- context [broadcast_message E rng message_json ?m ?w1] =>
    destruct (broadcast_run m w1) as (F & _ & n & R1) end.
  destruct (broadcast_message _ _ _ _ _) as [res1 w2]. cbn in F, R1 |- *. subst res1.
  rewrite R1. split; [reflexivity|]. split; reflexivity.
Qed.

Lemma maintain_pass_processed (now : Z) (w : world) :
  processed_messages (rs (snd (maintain_pass E rng uuid4 message_json discovery_json now w))) =
  gc_processed now ({[uuid4 (draws (rs w))]} ∪ processed_messages (rs w)).
Proof.
  unfold maintain_pass, try_except, set_nodes, mbind, M_bind.
  cbn [get_relay put_relay rs trace].
  match goal with |- context [send_discovery E rng uuid4 message_json discovery_json now ?w1] =>
    destruct (send_discovery_run now w1) as (F & _ & P1) end.
  destruct (send_discovery _ _ _ _ _ _ _) as [res1 w2]. cbn in F, P1 |- *. subst res1.
  rewrite P1. reflexivity.
Qed.


(** A [_maintain_nodes] pass leaves [processed_messages] equal to the
    clean-up filter applied to the old ids together with the id of the
    discovery message the pass sent. *)
Theorem maintenance_processed (now : Z) (w : world) :
  processed_messages (rs (snd (maintain_pass E rng uuid4 message_json discovery_json now w))) =
  gc_processed now ({[uuid4 (draws (rs w))]} ∪ processed_messages (rs w)).
Proof.
  apply maintain_pass_processed.
Qed.


(** After a [_maintain_nodes] pass at [now], [get_nodes] lists exactly the
    known peers that were active and seen at most 60 seconds before [now]. *)
Theorem maintenance_get_nodes (now : Z) (w : world) (n : Node) :
  n ∈ get_nodes (rs (snd (maintain_pass E rng uuid4 message_json discovery_json now w))) <->
  (exists k, nodes (rs w) !! k = Some n) /\ n_is_active n = true /\ now - n_last_seen n <= 60.
Proof.
  unfold get_nodes. rewrite list_elem_of_filter, list_elem_of_In, in_map_iff. split.
  - intros (Ha & [k n'] & Hn & Hin). cbn in Hn. subst n'.
    apply list_elem_of_In, elem_of_node_items in Hin.
    rewrite maintain_pass_nodes in Hin. unfold mark_stale in Hin. rewrite lookup_fmap in Hin.
    destruct (nodes (rs w) !! k) as [n0|] eqn:Hk; [|discriminate]. cbn in Hin.
    injection Hin as Hin.
    destruct (Z.ltb_spec 60 (now - n_last_seen n0)).
    + destruct (n_is_active n0) eqn:Ha0; subst n; cbn in Ha; congruence.
    + subst n0. split; [eauto|]. split; [exact Ha|lia].
  - intros ((k & Hk) & Ha & Hl). split; [exact Ha|]. exists (k, n). split; [reflexivity|].
    apply list_elem_of_In, elem_of_node_items. rewrite maintain_pass_nodes.
    unfold mark_stale. rewrite lookup_fmap, Hk. cbn.
    destruct (Z.ltb_spec 60 (now - n_last_seen n)); [lia|reflexivity].
Qed.

(** [send_text_message]/[send_voice_data] to a recipient other than
    "broadcast": the peer table and processed ids are unchanged, and one
    encrypted copy is sent to the recipient's address if it is a known
    peer whose key encrypts and [sendto] to its address and port does not
    raise; otherwise nothing is sent. *)
Theorem direct_send (kind : string) (t now : Z) (recipient body : string) (w : world) :
  String.eqb recipient "broadcast" = false ->
  let r := rs w in
  let m := {| m_id := uuid4 (draws r); sender_id := node_id r; recipient_id := recipient;
              m_type := kind; content := body; timestamp := now; ttl := t |} in
  let w' := snd (send_data E rng uuid4 message_json kind t now recipient body w) in
  nodes (rs w') = nodes r /\ processed_messages (rs w') = processed_messages r /\
  trace w' = trace w ++
    match nodes r !! recipient with
    | None => []
    | Some node =>
        match encrypt_message E (message_json m) (n_public_key node) (rng (S (draws r))) with
        | inl d => match socket r (S (S (draws r))) (n_address node) (n_port node) d with
                   | inl _ => [Sent (n_address node) (n_port node) m d]
                   | inr _ => []
                   end
        | inr _ => []
        end
    end.
Proof.
  intros Hb r m w'. subst r m w'.
  unfold send_data, fresh_uuid, mbind, M_bind, mret, M_ret.
  cbn [get_relay put_relay rs trace]. rewrite Hb.
  cbn [nodes with_draws node_id draws].
  destruct (nodes (rs w) !! recipient) as [node|].
  - match goal with |- context [send_one E rng ?m ?j node ?w1] =>
      destruct (send_one_spec E rng m j node w1) as (_ & T & _);
      pose proof (send_one_rs m j node w1) as R1 end.
    rewrite T, R1. cbn. split; [reflexivity|]. split; reflexivity.
  - cbn. rewrite app_nil_r. split; [reflexivity|]. split; reflexivity.
Qed.


(** [_handle_discovery] with a parsable payload stores the sender as an
    active peer with the sender's address, the announced port (or the
    relay's own port), the current time and the announced key. *)
Theorem discovery_updates_sender (m : Message) (addr : string) (now : Z) (w : world)
    (po : option Z) (pk : key) :
  parse_discovery (content m) = inl (po, pk) ->
  nodes (rs (snd (handle_discovery E rng uuid4 message_json parse_discovery routing_json
                    m addr now w))) =
  <[sender_id m := {| n_id := sender_id m; n_address := addr;
                      n_port := default (rport (rs w)) po; n_last_seen := now;
                      n_public_key := pk; n_is_active := true |}]> (nodes (rs w)).
Proof.
  intros Hp. unfold handle_discovery, set_item, mbind, M_bind.
  cbn [raise_res get_relay put_relay]. rewrite Hp. cbn [rs trace fst snd].
  destruct (bool_decide _).
  - match goal with |- context [send_routing_info E rng uuid4 message_json routing_json now ?w1] =>
      destruct (grows_send_routing_info E rng uuid4 message_json routing_json
                  (fun _ => True) (fun r r' => nodes r' = nodes r)
                  ltac:(intros; reflexivity)
                  ltac:(intros r1 r2 r3 H12 H23; cbv beta in *; congruence)
                  ltac:(intros; reflexivity) ltac:(intros; reflexivity)
                  ltac:(intros; split; [exact I|intros; exact I]) now w1)
        as (_ & _ & _ & R1) end.
    destruct (send_routing_info _ _ _ _ _ _ _) as [res1 w2]. cbn in R1 |- *. exact R1.
  - reflexivity.
Qed.

Lemma for_each_inv {A} (I : world -> Prop) (xs : list A) (f : A -> M unit) :
  (forall x w, In x xs -> I w -> I (snd (f x w))) ->
  forall w, I w -> I (snd (for_each xs f w)).
Proof.
  induction xs as [|x xs IH]; intros Hf w Hw; [exact Hw|].
  cbn [for_each]. unfold mbind, M_bind.
  pose proof (Hf x w (or_introl eq_refl) Hw) as H1.
  destruct (f x w) as [[u|e] w1]; [|exact H1].
  apply IH; [intros y w2 Hy; apply Hf; right; exact Hy|exact H1].
Qed.

(** [_handle_routing] with entries that all carry an id sends nothing,
    keeps every known peer entry, and never adds the relay itself. *)
Theorem routing_keeps_entries (m : Message) (now : Z) (w : world)
    (entries : list (option string * res Node)) :
  parse_routing (content m) = inl entries ->
  Forall (fun e => fst e <> None) entries ->
  let w' := snd (handle_routing parse_routing m now w) in
  trace w' = trace w /\
  (forall k n, nodes (rs w) !! k = Some n -> nodes (rs w') !! k = Some n) /\
  (nodes (rs w) !! node_id (rs w) = None -> nodes (rs w') !! node_id (rs w) = None).
Proof.
  intros Hp Hk w'. subst w'. unfold handle_routing. rewrite Hp.
  match goal with |- context [(raise_res (inl entries) ≫= ?K) w] =>
    change ((raise_res (inl entries) ≫= K) w) with (K entries w) end.
  cbv beta.
  match goal with |- context [for_each entries ?F w] =>
    assert (H : (fun w1 => trace w1 = trace w /\ node_id (rs w1) = node_id (rs w) /\
           (forall (k : string) (n : Node), nodes (rs w) !! k = Some n -> nodes (rs w1) !! k = Some n) /\
           (nodes (rs w) !! node_id (rs w) = None -> nodes (rs w1) !! node_id (rs w) = None))
           (snd (for_each entries F w))) end.
  2: { destruct H as (T & _ & K & S). auto. }
  apply for_each_inv; [|split; [reflexivity|]; split; [reflexivity|]; split; auto].
  intros [k built] w1 Hin (T1 & N1 & K1 & S1).
  rewrite List.Forall_forall in Hk. pose proof (Hk _ Hin) as Hs. cbn in Hs.
  destruct k as [k|]; [|congruence].
  unfold mbind, M_bind. cbn [get_relay].
  destruct (bool_decide (k <> node_id (rs w1)) && bool_decide (nodes (rs w1) !! k = None))
    eqn:Hf; [|cbn; auto].
  apply andb_prop in Hf as [Hne Hnone].
  apply bool_decide_eq_true in Hne. apply bool_decide_eq_true in Hnone.
  cbn [raise_res]. destruct built as [node|e]; [|cbn; auto].
  unfold set_item, dict_set, mbind, M_bind.
  cbn [get_relay put_relay rs trace snd nodes with_table node_id]. change (default (n_id node) (Some k)) with k.
  split; [exact T1|]. split; [exact N1|]. split.
  - intros k0 n0 H0. pose proof (K1 k0 n0 H0) as H1.
    rewrite lookup_insert_ne; [exact H1|]. intros ->. congruence.
  - intros H0. rewrite lookup_insert_ne; [exact (S1 H0)|]. rewrite <- N1. exact Hne.
Qed.

End Ops.

Section Inserts.

Variable E : env.
Variable rng : nat -> coins.
Variable uuid4 : nat -> string.
Variable message_json : Message -> bytes.
Variable parse_message : bytes -> res Message.
Variable parse_discovery : string -> res (option Z * key).
Variable parse_routing : string -> res (list (option string * res Node)).
Variable routing_json : list Node -> string.

(** Relations on relay states that hold across random draws, [processed]
    insertions and single insertions into the peer table. *)
Variable R : relay -> relay -> Prop.
Hypothesis R_refl : forall r, R r r.
Hypothesis R_trans : forall r1 r2 r3, R r1 r2 -> R r2 r3 -> R r1 r3.
Hypothesis R_draws : forall r n, R r (with_draws r n).
Hypothesis R_mark : forall r i, R r (with_processed r ({[i]} ∪ processed_messages r)).
Hypothesis R_insert : forall r k v, R r (dict_set r k v).

Let T : event -> Prop := fun _ => True.

Ltac tstep :=
  first [ (apply grows_ret; exact R_refl) | (apply grows_get; exact R_refl) | (apply grows_raise; exact R_refl)
        | apply (grows_bind T R R_trans); [|intros ?]
        | apply (grows_try T R R_trans); [|intros ?] ].

Lemma grows_get_insert (key : relay -> string) (v : relay -> Node) (k : relay -> M unit) :
  (forall r, grows T R (k r)) ->
  grows T R (r ← get_relay; set_item (key r) (v r);; k r).
Proof.
  intros Hk w. unfold set_item, mbind, M_bind. cbn [get_relay put_relay rs trace].
  destruct (Hk (rs w) {| rs := dict_set (rs w) (key (rs w)) (v (rs w));
                         trace := trace w |}) as (n1 & T1 & F1 & R1).
  exists n1. cbn in T1, R1. split; [exact T1|]. split; [exact F1|].
  eapply R_trans; [apply R_insert|exact R1].
Qed.

Lemma grows_handle_discovery_ins (m : Message) (addr : string) (now : Z) :
  grows T R (handle_discovery E rng uuid4 message_json parse_discovery routing_json m addr now).
Proof.
  unfold handle_discovery. apply (grows_bind T R R_trans); [(apply grows_raise; exact R_refl)|intros c].
  apply (grows_get_insert (fun _ => sender_id m)
           (fun r => {| n_id := sender_id m; n_address := addr;
                        n_port := default (rport r) (fst c); n_last_seen := now;
                        n_public_key := snd c; n_is_active := true |})
           (fun r => if bool_decide (sender_id m <> node_id r)
                     then send_routing_info E rng uuid4 message_json routing_json now
                     else skip)).
  intros r. destruct (bool_decide _); [|(apply grows_ret; exact R_refl)].
  apply grows_send_routing_info; auto. intros; split; [exact I|intros; exact I].
Qed.

Lemma grows_handle_routing_ins (m : Message) (now : Z) :
  grows T R (handle_routing parse_routing m now).
Proof.
  unfold handle_routing. apply (grows_bind T R R_trans); [(apply grows_raise; exact R_refl)|intros entries].
  apply (grows_for_each T R R_refl R_trans). intros [k built] _ w.
  unfold mbind, M_bind. cbn [get_relay].
  destruct (match k with Some _ => _ | None => _ end).
  - cbn [raise_res]. destruct built as [node|e]; unfold set_item; cbn.
    + exists []. rewrite app_nil_r. split; [reflexivity|]. split; [constructor|].
      apply R_insert.
    + exists []. rewrite app_nil_r. auto.
  - exists []. cbn. rewrite app_nil_r. auto.
Qed.

Lemma grows_handle_message_ins (d : datagram) (addr : string) (now : Z) :
  grows T R (handle_message E rng uuid4 message_json parse_message parse_discovery
               parse_routing routing_json d addr now).
Proof.
  unfold handle_message. apply (grows_try T R R_trans); [|intros; (apply grows_ret; exact R_refl)].
  tstep; [(apply grows_get; exact R_refl)|]. tstep; [(apply grows_raise; exact R_refl)|]. tstep; [(apply grows_raise; exact R_refl)|].
  unfold handle_parsed. tstep; [(apply grows_get; exact R_refl)|].
  destruct (bool_decide _); [(apply grows_ret; exact R_refl)|].
  tstep; [apply grows_mark; [exact R_mark|exact I]|]. tstep; [apply grows_emit; [exact R_refl|exact I]|].
  tstep.
  - destruct (String.eqb _ _); [apply grows_handle_discovery_ins|].
    destruct (String.eqb _ _); [apply grows_handle_routing_ins|].
    destruct (_ || _); [apply grows_handle_data; auto; exact I|(apply grows_ret; exact R_refl)].
  - destruct (0 <? _); [|(apply grows_ret; exact R_refl)]. apply grows_relay_message; auto.
    intros; exact I.
Qed.

End Inserts.

(** The receive loop never removes a peer: a key present in the peer
    table before a stream of datagrams is present after it. *)
Theorem receive_keeps_peers (E : env) (rng : nat -> coins) (uuid4 : nat -> string)
    (message_json : Message -> bytes) (parse_message : bytes -> res Message)
    (parse_discovery : string -> res (option Z * key))
    (parse_routing : string -> res (list (option string * res Node)))
    (routing_json : list Node -> string)
    (s : list (datagram * string * Z)) (w : world) (k : string) :
  is_Some (nodes (rs w) !! k) ->
  is_Some (nodes (rs (snd (receive_stream E rng uuid4 message_json parse_message
                             parse_discovery parse_routing routing_json s w))) !! k).
Proof.
  set (R := fun r r' : relay => forall k, is_Some (nodes r !! k) -> is_Some (nodes r' !! k)).
  assert (Rr : forall r, R r r) by (intros r j Hj; exact Hj).
  assert (Rt : forall r1 r2 r3, R r1 r2 -> R r2 r3 -> R r1 r3)
    by (intros r1 r2 r3 H12 H23 j Hj; apply H23, H12, Hj).
  assert (G : grows (fun _ => True) R (receive_stream E rng uuid4 message_json parse_message
                             parse_discovery parse_routing routing_json s)).
  { unfold receive_stream. apply (grows_for_each _ R Rr Rt).
    intros [[d a] t] _. apply grows_handle_message_ins; unfold R.
    + exact Rr.
    + exact Rt.
    + intros r n j Hj. exact Hj.
    + intros r i j Hj. exact Hj.
    + intros r k' v j Hj. unfold dict_set. cbn. destruct (decide (k' = j)) as [->|Hne].
      * rewrite lookup_insert_eq. eexists; reflexivity.
      * rewrite lookup_insert_ne by exact Hne. exact Hj. }
  destruct (G w) as (_ & _ & _ & R1). exact (R1 k).
Qed.

End RelayMore.

(* ================================================================== *)
(** * Evaluated instances *)

Module Checks.
Import Crypto Mesh MeshRelay Voice Samples.

Lemma relay_ttl_step_witness :
  ("m1" ∉ processed_messages (relay0 ∅ ∅)) /\ (forall n, uuid0 n <> "m1") /\
  In (Delivered (text_msg "m1" "C" 1))
    (trace (snd (handle_parsed no_libs rng0 uuid0 json0 parse_discovery0 parse_routing0
                   routing_json0 (text_msg "m1" "C" 1) "10.0.0.3" 0 (world0 ∅ ∅)))).
Proof.
  assert (H1 : "m1" ∉ processed_messages (relay0 ∅ ∅)) by apply not_elem_of_empty.
  assert (H2 : forall n, uuid0 n <> "m1") by (intros n; vm_compute; discriminate).
  split; [exact H1|split; [exact H2|]].
  apply (RelayFacts.relay_ttl_step no_libs rng0 uuid0 json0 parse_discovery0 parse_routing0
           routing_json0 (text_msg "m1" "C" 1) "10.0.0.3" 0 (relay0 ∅ ∅) H1 H2);
    [left; reflexivity | right; reflexivity].
Defined.


Lemma gc_keeps_letter_ids_witness :
  letter_id ∈ processed_messages (rs (world0 ∅ {[letter_id]})) /\
  last_segment letter_id = String "f" "00000000000" /\
  letter_id ∈ processed_messages
    (rs (snd (maintain_pass no_libs rng0 uuid0 json0 discovery_json0 1000000000
                (world0 ∅ {[letter_id]})))).
Proof.
  assert (H1 : letter_id ∈ processed_messages (rs (world0 ∅ {[letter_id]}))) by reflexivity.
  assert (H2 : last_segment letter_id = String "f" "00000000000") by (vm_compute; reflexivity).
  assert (H3 : (97 <= nat_of_ascii "f")%nat) by (apply Nat.leb_le; reflexivity).
  split; [exact H1|split; [exact H2|]].
  exact (RelayFacts.gc_keeps_letter_ids no_libs rng0 uuid0 json0 discovery_json0 1000000000
           (world0 ∅ {[letter_id]}) letter_id "f" "00000000000" H1 H2 H3).
Defined.



(** C9: of three active targets, the one without a public key and the
    one whose port is above 65535 get no copy; the third does. *)
Lemma relay_skips_failed_targets :
  map fst (relay_targets (relay0 mixed_peers ∅) (text_msg "x" "C" 2)) = ["E"; "B"; "D"] /\
  sent_to (trace (snd (relay_message no_libs rng0 json0 (text_msg "x" "C" 2)
                         (world0 mixed_peers ∅)))) = [("10.0.0.5", 8000)].
Proof. split; vm_compute; reflexivity. Qed.

Lemma relay_fanout_witness :
  0 < ttl (text_msg "x" "C" 2) /\
  trace (snd (relay_message no_libs rng0 json0 (text_msg "x" "C" 2) (world0 mixed_peers ∅))) =
  relay_copies no_libs rng0 json0 net0 (text_msg "x" "C" 2)
    (relay_targets (relay0 mixed_peers ∅) (text_msg "x" "C" 2)) 0.
Proof.
  assert (H1 : 0 < ttl (text_msg "x" "C" 2)) by reflexivity.
  split; [exact H1|].
  exact (proj1 (proj2 (RelayFacts.relay_fanout no_libs rng0 json0 (text_msg "x" "C" 2)
                         (world0 mixed_peers ∅))) H1).
Defined.

(** C8: a peer last seen exactly 60 s ago is still active after the pass. *)
Lemma stale_peer_at_60_stays_active :
  nodes (rs (snd (maintain_pass no_libs rng0 uuid0 json0 discovery_json0 60
                    (world0 keyless_peers ∅)))) !! "B" = Some (peer "B" 0 None).
Proof. vm_compute. reflexivity. Qed.

Lemma maintenance_marks_stale_witness :
  keyless_peers !! "B" = Some (peer "B" 0 None) /\
  exists n', nodes (rs (snd (maintain_pass no_libs rng0 uuid0 json0 discovery_json0 61
                               (world0 keyless_peers ∅)))) !! "B" = Some n' /\
    n_is_active n' = false.
Proof.
  assert (H1 : keyless_peers !! "B" = Some (peer "B" 0 None)) by reflexivity.
  split; [exact H1|].
  destruct (proj2 (RelayFacts.maintenance_marks_stale no_libs rng0 uuid0 json0 discovery_json0 61
                     (world0 keyless_peers ∅)) "B" (peer "B" 0 None) H1) as (n' & Hn & Ha & _).
  exists n'. split; [exact Hn|]. rewrite Ha. reflexivity.
Defined.

(** C5: a one-byte ciphertext under a fallback envelope; flipping its
    lowest bit changes the plaintext, and neither is an error. *)
Lemma fallback_accepts_flipped_bit :
  decrypt_main no_libs (fallback_envelope [] [Byte.x27]) (Some seed0) = inr KeyError /\
  decrypt_main no_libs (fallback_envelope [] [Byte.x26]) (Some seed0) = inr KeyError /\
  decrypt_message no_libs (fallback_envelope [] [Byte.x27]) (Some seed0) = inl [Byte.x41] /\
  decrypt_message no_libs (fallback_envelope [] [Byte.x26]) (Some seed0) = inl [Byte.x40].
Proof. repeat split; vm_compute; reflexivity. Qed.

Lemma decrypt_failure_modes_witness :
  decrypt_main no_libs (fallback_envelope [] [Byte.x26]) (Some seed0) = inr KeyError /\
  decrypt_message no_libs (fallback_envelope [] [Byte.x26]) (Some seed0) =
  utf8_decode (xor_bytes [Byte.x26] (keystream (firstn 32 seed0 ++ []) 1)).
Proof.
  assert (H1 : decrypt_main no_libs (fallback_envelope [] [Byte.x26]) (Some seed0) = inr KeyError)
    by (vm_compute; reflexivity).
  split; [exact H1|].
  exact (proj2 (proj2 (proj2 (proj2 (CryptoFacts.decrypt_failure_modes no_libs
           (fallback_envelope [] [Byte.x26]) (Some seed0)))))
           _ [] [Byte.x26] seed0 KeyError eq_refl eq_refl H1 eq_refl eq_refl eq_refl).
Defined.

Lemma vad_debounce_witness :
  (max_voiced_run (repeat 1%Q 9 ++ [0%Q]) <= 9)%nat /\
  Forall (fun b => b = false) (speech_trace audio_init (repeat 1%Q 9 ++ [0%Q])).
Proof.
  assert (H1 : (max_voiced_run (repeat 1%Q 9 ++ [0%Q]) <= 9)%nat) by (vm_compute; lia).
  split; [exact H1|].
  exact (proj1 VoiceFacts.vad_debounce _ H1).
Defined.

Lemma process_buffer_length_witness :
  rnnoise_frame_ok None /\
  length (snd (process_buffer None audio_init (repeat Byte.x00 1000))) = 1000%nat.
Proof.
  assert (H1 : rnnoise_frame_ok None) by (simpl; exact I).
  split; [exact H1|].
  exact (proj1 (BufferFacts.process_buffer_length None H1 audio_init (repeat Byte.x00 1000))).
Defined.

End Checks.

Module ExtraChecks.
Import Crypto Mesh MeshRelay Voice Detector Commands Samples.

Lemma aead_fallback_roundtrip_witness :
  nacl no_libs = None /\ length (c_nonce coins0) = 24%nat /\
  exists ed, aead_encrypt no_libs [Byte.x68; Byte.x69] seed0 coins0 = inl ed /\
             length ed = (56 + 2)%nat /\
             aead_decrypt no_libs ed seed0 = inl (Some [Byte.x68; Byte.x69]).
Proof.
  split; [reflexivity|]. split; [reflexivity|].
  apply (CryptoMore.aead_fallback_roundtrip no_libs [Byte.x68; Byte.x69] seed0 coins0);
    reflexivity.
Defined.

Lemma aead_fallback_short_rejected_witness :
  nacl no_libs = None /\ (length (repeat Byte.x00 55) < 56)%nat /\
  aead_decrypt no_libs (repeat Byte.x00 55) seed0 = inl None.
Proof.
  assert (H : (length (repeat Byte.x00 55) < 56)%nat) by (rewrite repeat_length; lia).
  split; [reflexivity|]. split; [exact H|].
  exact (CryptoMore.aead_fallback_short_rejected no_libs (repeat Byte.x00 55) seed0
           eq_refl H).
Defined.

Lemma fallback_roundtrip_witness :
  nacl no_libs = None /\ firstn 32 seed0 = firstn 32 seed0 /\
  exists d, fallback_encrypt no_libs [Byte.x68; Byte.x69] (Some seed0) coins0 = inl d /\
            fallback_decrypt no_libs d (Some seed0) = utf8_decode [Byte.x68; Byte.x69].
Proof.
  split; [reflexivity|]. split; [reflexivity|].
  apply (CryptoMore.fallback_roundtrip no_libs [Byte.x68; Byte.x69] seed0 seed0 coins0);
    reflexivity.
Defined.

Lemma struct_roundtrip_witness :
  Forall int16 [1; -2] /\ unpack (pack [1; -2]) = inl [1; -2] /\
  Nat.even (length [Byte.x01; Byte.xff]) = true /\
  unpack [Byte.x01; Byte.xff] = inl (le16_samples [Byte.x01; Byte.xff]).
Proof.
  assert (H : Forall int16 [1; -2]) by (repeat constructor; unfold int16; lia).
  split; [exact H|]. split; [exact (proj1 (VoiceMore.struct_roundtrip [1; -2] []) H)|].
  split; [reflexivity|].
  exact (proj1 (proj2 (VoiceMore.struct_roundtrip [] [Byte.x01; Byte.xff]) eq_refl)).
Defined.

Lemma noise_buffer_bounded_witness :
  (length (nbuffer (noise audio_init)) <= DENOISE_BUFFER)%nat /\
  (length (nbuffer (noise (fst (process_audio None audio_init [Byte.x01; Byte.x00]))))
     <= DENOISE_BUFFER)%nat.
Proof.
  assert (H : (length (nbuffer (noise audio_init)) <= DENOISE_BUFFER)%nat)
    by (cbn; lia).
  split; [exact H|].
  exact (VoiceMore.noise_buffer_bounded None audio_init [Byte.x01; Byte.x00] H).
Defined.

Lemma process_audio_frame_length_witness :
  rnnoise_frame_ok None /\
  length (fst (snd (process_audio None audio_init [Byte.x01; Byte.x00]))) = 960%nat.
Proof.
  split; [exact I|].
  exact (VoiceMore.process_audio_frame_length None audio_init [Byte.x01; Byte.x00] I).
Defined.

Lemma detector_loud_run_witness :
  let fs := [[Byte.x00; Byte.x40]; [Byte.x00; Byte.xc0]] in
  Forall (fun f => exists ints, unpack f = inl ints /\
                     loud (energy_threshold (detector_init (1 # 100) 2))
                          (map to_float ints) = true) fs /\
  detector_run (detector_init (1 # 100) 2) fs = [false; true].
Proof.
  intros fs.
  assert (H : Forall (fun f => exists ints, unpack f = inl ints /\
                     loud (energy_threshold (detector_init (1 # 100) 2))
                          (map to_float ints) = true) fs).
  { repeat constructor; eexists; split; reflexivity. }
  split; [exact H|].
  rewrite (DetectorMore.detector_loud_run (detector_init (1 # 100) 2) fs H).
  reflexivity.
Defined.

Lemma detector_quiet_or_malformed_witness :
  let d := {| energy_threshold := 1 # 100; min_frames := 2; d_speech_frames := 5;
              d_is_speech := true |} in
  Nat.even (length [Byte.x00]) = false /\
  detector_process_frame d [Byte.x00] = (d, false) /\
  Nat.even (length [Byte.x01; Byte.x00]) = true /\
  loud (energy_threshold d) (map to_float (le16_samples [Byte.x01; Byte.x00])) = false /\
  snd (detector_process_frame d [Byte.x01; Byte.x00]) = false.
Proof.
  intros d.
  assert (H1 : loud (energy_threshold d)
                 (map to_float (le16_samples [Byte.x01; Byte.x00])) = false)
    by reflexivity.
  split; [reflexivity|].
  split; [exact (proj1 (DetectorMore.detector_quiet_or_malformed d [Byte.x00]) eq_refl)|].
  split; [reflexivity|]. split; [exact H1|].
  rewrite (proj2 (DetectorMore.detector_quiet_or_malformed d [Byte.x01; Byte.x00])
             eq_refl H1).
  reflexivity.
Defined.

Lemma command_dispatch_witness :
  Forall (fun x => x <> EmptyString /\
            forallb (fun c => negb (is_space c)) (list_ascii_of_string x) = true)
         ["Call"; "Bob"] /\
  process_command (join ["Call"; "Bob"]) = handle_call (map lower ["Bob"]) /\
  process_command (join ["dial"; "Bob"]) =
    [("success", JBool false); ("message", JStr ("Unknown command: " ++ lower "dial"));
     ("available_commands", JStrs ["call"; "message"; "sos"; "help"])].
Proof.
  assert (H : Forall (fun x => x <> EmptyString /\
            forallb (fun c => negb (is_space c)) (list_ascii_of_string x) = true)
         ["Call"; "Bob"]) by (repeat constructor; discriminate).
  assert (H' : Forall (fun x => x <> EmptyString /\
            forallb (fun c => negb (is_space c)) (list_ascii_of_string x) = true)
         ["dial"; "Bob"]) by (repeat constructor; discriminate).
  split; [exact H|]. split.
  - apply (proj1 (CommandsMore.command_dispatch "Call" ["Bob"] H)).
    left. reflexivity.
  - apply (proj2 (CommandsMore.command_dispatch "dial" ["Bob"] H')).
    repeat constructor; discriminate.
Defined.

Lemma direct_send_witness :
  String.eqb "B" "broadcast" = false /\
  nodes (rs (snd (send_data no_libs rng0 uuid0 json0 "text" 3 0 "B" "hi"
                    (world0 keyless_peers ∅)))) = keyless_peers /\
  trace (snd (send_data no_libs rng0 uuid0 json0 "text" 3 0 "B" "hi"
                (world0 keyless_peers ∅))) = [].
Proof.
  split; [reflexivity|].
  destruct (RelayMore.direct_send no_libs rng0 uuid0 json0 "text" 3 0 "B" "hi"
              (world0 keyless_peers ∅) eq_refl) as (H1 & _ & H3).
  split; [exact H1|]. rewrite H3. reflexivity.
Defined.

Lemma discovery_updates_sender_witness :
  parse_discovery1 (content (text_msg "m1" "C" 2)) = inl (Some 9000, Some seed0) /\
  nodes (rs (snd (handle_discovery no_libs rng0 uuid0 json0 parse_discovery1 routing_json0
                    (text_msg "m1" "C" 2) "10.0.0.3" 7 (world0 ∅ ∅)))) =
    {["C" := {| n_id := "C"; n_address := "10.0.0.3"; n_port := 9000; n_last_seen := 7;
                n_public_key := Some seed0; n_is_active := true |}]}.
Proof.
  split; [reflexivity|].
  rewrite (RelayMore.discovery_updates_sender no_libs rng0 uuid0 json0 parse_discovery1
             routing_json0 (text_msg "m1" "C" 2) "10.0.0.3" 7 (world0 ∅ ∅)
             (Some 9000) (Some seed0) eq_refl).
  reflexivity.
Defined.

Lemma routing_keeps_entries_witness :
  parse_routing1 (content (text_msg "m1" "C" 2)) = inl entries1 /\
  Forall (fun e => fst e <> None) entries1 /\
  nodes (rs (snd (handle_routing parse_routing1 (text_msg "m1" "C" 2) 7
                    (world0 keyless_peers ∅)))) !! "B" = Some (peer "B" 0 None).
Proof.
  assert (H : Forall (fun e => fst e <> None) entries1)
    by (repeat constructor; discriminate).
  split; [reflexivity|]. split; [exact H|].
  destruct (RelayMore.routing_keeps_entries parse_routing1 (text_msg "m1" "C" 2) 7
              (world0 keyless_peers ∅) _ eq_refl H) as (_ & H2 & _).
  apply H2. reflexivity.
Defined.

Lemma receive_keeps_peers_witness :
  is_Some (keyless_peers !! "B") /\
  is_Some (nodes (rs (snd (receive_stream no_libs rng0 uuid0 json0 parse0 parse_discovery0
                             parse_routing0 routing_json0
                             [(fallback_envelope [] [], "10.0.0.3", 0)]
                             (world0 keyless_peers ∅)))) !! "B").
Proof.
  assert (H : is_Some (nodes (rs (world0 keyless_peers ∅)) !! "B"))
    by (eexists; reflexivity).
  split; [exact H|].
  exact (RelayMore.receive_keeps_peers no_libs rng0 uuid0 json0 parse0 parse_discovery0
           parse_routing0 routing_json0 [(fallback_envelope [] [], "10.0.0.3", 0)]
           (world0 keyless_peers ∅) "B" H).
Defined.

End ExtraChecks.
